(** * Steganalysis-Demo: the file-carving engine and the hiding writer

    A shallow embedding of [extract_hidden_files.py] (signature scanner,
    boundary resolver, filename heuristic) and of the writer of
    [stegno.py], with the properties of the specification stated over it.

    Conventions.  A Python [bytes] value is a [list byte]; a Python [str]
    is the list of its code points; a Python [int] is a [Z], so that the
    [-1] returned by [bytes.find] takes part in arithmetic exactly as it
    does in the source.  The dictionary [FILE_SIGNATURES] is an association
    list in insertion order, which is the order [dict.items()] iterates in.
    Logging is not modelled. *)

From Stdlib Require Import List ZArith NArith Lia Bool String Ascii.
From Stdlib Require Import Permutation Sorted.
From Stdlib.Strings Require Byte.
Import ListNotations.

Local Open Scope Z_scope.

(** ** Python values *)

Definition byte : Set := Byte.byte.
Definition bytes := list byte.

(** A [str]: the sequence of its Unicode code points. *)
Definition str := list N.

Definition lit (s : string) : str := map N_of_ascii (list_ascii_of_string s).

Definition len {A : Type} (l : list A) : Z := Z.of_nat (List.length l).

Fixpoint bytes_eqb (a b : bytes) : bool :=
  match a, b with
  | [], [] => true
  | x :: a', y :: b' => Byte.eqb x y && bytes_eqb a' b'
  | _, _ => false
  end.

(** [starts_with sub l]: [sub] is a prefix of [l]. *)
Fixpoint starts_with (sub l : bytes) : bool :=
  match sub with
  | [] => true
  | x :: sub' =>
      match l with
      | [] => false
      | y :: l' => Byte.eqb x y && starts_with sub' l'
      end
  end.

(** Index of the first suffix of [l] that starts with [sub]. *)
Fixpoint find_first (sub l : bytes) : option nat :=
  if starts_with sub l then Some 0%nat
  else match l with
       | [] => None
       | _ :: l' => option_map S (find_first sub l')
       end.

(** Normalisation of a slice index, as CPython does for [find] and for
    slicing: a negative index counts from the end and is clipped at 0. *)
Definition adjust_index (n i : Z) : Z :=
  if i <? 0 then Z.max (i + n) 0 else i.

(** [data.find(sub, start)]: lowest index [>= start] where [sub] occurs,
    or [-1]. *)
Definition find (data sub : bytes) (start : Z) : Z :=
  let s := adjust_index (len data) start in
  if len data <? s then -1
  else match find_first sub (skipn (Z.to_nat s) data) with
       | Some k => s + Z.of_nat k
       | None => -1
       end.

(** [data[lo:hi]]. *)
Definition slice {A : Type} (data : list A) (lo hi : Z) : list A :=
  let n := len data in
  let lo' := Z.min (adjust_index n lo) n in
  let hi' := Z.min (adjust_index n hi) n in
  firstn (Z.to_nat (hi' - lo')) (skipn (Z.to_nat lo') data).

(** [sub] occurs in [data] at byte offset [o]. *)
Definition occurs_atb (data sub : bytes) (o : Z) : bool :=
  (0 <=? o) && (o <=? len data) && starts_with sub (skipn (Z.to_nat o) data).

Definition occurs_at (data sub : bytes) (o : Z) : Prop :=
  0 <= o /\ exists pre post, data = pre ++ sub ++ post /\ len pre = o.

(** ** The signature catalog *)

Record SignatureEntry := mkEntry {
  magic : bytes;
  format : str;
  entry_footer : option bytes
}.

Import Byte.

Definition FILE_SIGNATURES : list SignatureEntry :=
  [ mkEntry [x50; x4b; x03; x04] (lit "zip") (Some [x50; x4b; x05; x06]);
    mkEntry [x25; x50; x44; x46] (lit "pdf") (Some [x25; x25; x45; x4f; x46]);
    mkEntry [x89; x50; x4e; x47; x0d; x0a; x1a; x0a] (lit "png")
            (Some [x49; x45; x4e; x44; xae; x42; x60; x82]);
    mkEntry [xff; xd8; xff] (lit "jpg") (Some [xff; xd9]);
    mkEntry [x47; x49; x46; x38; x37; x61] (lit "gif") None;
    mkEntry [x47; x49; x46; x38; x39; x61] (lit "gif") None;
    mkEntry [x49; x49; x2a; x00] (lit "tiff") None;
    mkEntry [x4d; x4d; x00; x2a] (lit "tiff") None;
    mkEntry [xef; xbb; xbf] (lit "txt") None;
    mkEntry [xff; xfe] (lit "txt") None;
    mkEntry [xfe; xff] (lit "txt") None;
    mkEntry [x00; x00; xfe; xff] (lit "txt") None;
    mkEntry [xff; xfe; x00; x00] (lit "txt") None ].

(** ** The signature scanner *)

(** The tuple [(signature, offset, extension, footer)]. *)
Record Hit := mkHit {
  signature : bytes;
  offset : Z;
  extension : str;
  footer : option bytes
}.

Definition hit_of (e : SignatureEntry) (o : Z) : Hit :=
  mkHit (magic e) o (format e) (entry_footer e).

(** The [while offset != -1] loop of [find_file_signatures] for one catalog
    entry.  Each iteration consumes one unit of [fuel]; [None] means the
    fuel ran out before the loop ended. *)
Fixpoint scan_while (fuel : nat) (data : bytes) (e : SignatureEntry)
    (off : Z) (signatures : list Hit) : option (list Hit) :=
  if off =? -1 then Some signatures
  else match fuel with
       | O => None
       | S fuel' =>
           scan_while fuel' data e (find data (magic e) (off + 1))
                      (signatures ++ [hit_of e off])
       end.

(** The [for ... in FILE_SIGNATURES.items()] loop. *)
Fixpoint scan_catalog (fuel : nat) (data : bytes) (cat : list SignatureEntry)
    (signatures : list Hit) : option (list Hit) :=
  match cat with
  | [] => Some signatures
  | e :: cat' =>
      match scan_while fuel data e (find data (magic e) 0) signatures with
      | Some signatures' => scan_catalog fuel data cat' signatures'
      | None => None
      end
  end.

(** [list.sort(key=lambda x: x[1])] is a stable sort; stable insertion by
    the offset key yields the same list. *)
Fixpoint insert_by_offset (h : Hit) (l : list Hit) : list Hit :=
  match l with
  | [] => [h]
  | h' :: l' =>
      if offset h <=? offset h' then h :: h' :: l'
      else h' :: insert_by_offset h l'
  end.

Fixpoint sort_by_offset (l : list Hit) : list Hit :=
  match l with
  | [] => []
  | h :: l' => insert_by_offset h (sort_by_offset l')
  end.

(** [find_file_signatures(data)].  An offset found by [find] is at most
    [len(data)], so [len(data) + 1] iterations per entry are enough; that
    they are is [find_file_signatures_returns] below. *)
Definition find_file_signatures (data : bytes) : option (list Hit) :=
  option_map sort_by_offset
    (scan_catalog (S (List.length data)) data FILE_SIGNATURES []).

(** ** The filename heuristic *)

Local Open Scope N_scope.

Definition in_range (lo hi v : N) : bool := (lo <=? v) && (v <=? hi).

Definition is_continuation (b : byte) : bool := in_range 0x80 0xBF (to_N b).

(** Low six bits of a continuation byte. *)
Definition low6 (b : byte) : N := to_N b - 0x80.

(** Range of the second byte of a three-byte and of a four-byte sequence:
    no overlong forms, no surrogates, nothing above U+10FFFF. *)
Definition second_of_3 (v0 : N) (b1 : byte) : bool :=
  if v0 =? 0xE0 then in_range 0xA0 0xBF (to_N b1)
  else if v0 =? 0xED then in_range 0x80 0x9F (to_N b1)
  else is_continuation b1.

Definition second_of_4 (v0 : N) (b1 : byte) : bool :=
  if v0 =? 0xF0 then in_range 0x90 0xBF (to_N b1)
  else if v0 =? 0xF4 then in_range 0x80 0x8F (to_N b1)
  else is_continuation b1.

(** [b.decode('utf-8', errors='ignore')].  Where a well-formed sequence
    starts, its code point is produced; any other byte is dropped.  (The
    bytes CPython skips after a malformed lead byte are continuation bytes,
    which are dropped one at a time here: the decoded text is the same.) *)
Fixpoint decode_utf8_ignore (l : bytes) : str :=
  match l with
  | [] => []
  | b0 :: t =>
      let v0 := to_N b0 in
      if v0 <? 0x80 then v0 :: decode_utf8_ignore t
      else if in_range 0xC2 0xDF v0 then
        match t with
        | b1 :: t1 =>
            if is_continuation b1
            then ((v0 - 0xC0) * 64 + low6 b1) :: decode_utf8_ignore t1
            else decode_utf8_ignore t
        | _ => decode_utf8_ignore t
        end
      else if in_range 0xE0 0xEF v0 then
        match t with
        | b1 :: b2 :: t2 =>
            if second_of_3 v0 b1 && is_continuation b2
            then ((v0 - 0xE0) * 4096 + low6 b1 * 64 + low6 b2)
                   :: decode_utf8_ignore t2
            else decode_utf8_ignore t
        | _ => decode_utf8_ignore t
        end
      else if in_range 0xF0 0xF4 v0 then
        match t with
        | b1 :: b2 :: b3 :: t3 =>
            if second_of_4 v0 b1 && is_continuation b2 && is_continuation b3
            then ((v0 - 0xF0) * 262144 + low6 b1 * 4096 + low6 b2 * 64
                  + low6 b3) :: decode_utf8_ignore t3
            else decode_utf8_ignore t
        | _ => decode_utf8_ignore t
        end
      else decode_utf8_ignore t
  end.

Fixpoint str_eqb (a b : str) : bool :=
  match a, b with
  | [], [] => true
  | x :: a', y :: b' => (x =? y) && str_eqb a' b'
  | _, _ => false
  end.

(** [s.split(sep)] for a separator of one character. *)
Fixpoint split_on (sep : N) (s : str) : list str :=
  match s with
  | [] => [[]]
  | c :: s' =>
      if c =? sep then [] :: split_on sep s'
      else match split_on sep s' with
           | p :: ps => (c :: p) :: ps
           | [] => [[c]]
           end
  end.

(** [str.isspace] on one character, as CPython's [_PyUnicode_IsWhitespace]. *)
Definition is_space (c : N) : bool :=
  in_range 0x09 0x0D c || in_range 0x1C 0x20 c || (c =? 0x85) || (c =? 0xA0)
  || (c =? 0x1680) || in_range 0x2000 0x200A c || (c =? 0x2028)
  || (c =? 0x2029) || (c =? 0x202F) || (c =? 0x205F) || (c =? 0x3000).

Fixpoint lstrip (s : str) : str :=
  match s with
  | [] => []
  | c :: s' => if is_space c then lstrip s' else s
  end.

(** [s.strip()]. *)
Definition strip (s : str) : str := rev (lstrip (rev (lstrip s))).

Definition NUL : N := 0.
Definition DOT : N := 46.

(** [sep in s]. *)
Definition contains (sep : N) (s : str) : bool := existsb (N.eqb sep) s.

(** The test of the [if] inside the loop of [extract_filename]. *)
Definition names_format (part ext : str) : bool :=
  (1 <? len part)%Z && contains DOT part
  && str_eqb (last (split_on DOT part) []) ext.

(** The [for part in ...] loop with its early [return]. *)
Fixpoint first_named (parts : list str) (ext : str) : option str :=
  match parts with
  | [] => None
  | part :: parts' =>
      if names_format part ext then Some (strip part)
      else first_named parts' ext
  end.

Definition extract_filename (data : bytes) (start : Z) (ext : str) : str :=
  let possible_filename :=
    decode_utf8_ignore (slice data start (start + 100)%Z) in
  match first_named (split_on NUL possible_filename) ext with
  | Some name => name
  | None => lit "file." ++ ext
  end.

Local Close Scope N_scope.

(** ** The boundary resolver and extractor *)

(** Truth value of [footer] in [if footer:]: [None] and [b''] are false. *)
Definition truthy (ft : option bytes) : option bytes :=
  match ft with
  | Some (_ :: _) => ft
  | _ => None
  end.

(** The [end] computed for the hit at index [i] of [signatures]. *)
Definition resolve_end (data : bytes) (signatures : list Hit) (i : nat)
    (h : Hit) : Z :=
  let start := offset h in
  match truthy (footer h) with
  | Some ft => find data ft start + len ft
  | None =>
      if (Z.of_nat i + 1 <? len signatures)
      then offset (nth (i + 1) signatures h)
      else len data
  end.

(** [enumerate(l)]. *)
Definition enumerate {A : Type} (l : list A) : list (nat * A) :=
  combine (seq 0 (List.length l)) l.

Section Extractor.

(** The file system is a parameter: reading the image and writing an
    output file may each fail ([None]), which the source lets propagate
    as an exception. *)
Variable FS : Type.
Variable read_bytes : FS -> string -> option bytes.
Variable write_bytes : FS -> string -> str -> bytes -> option FS.

(** How a call ends, with the file system it leaves and the files it
    wrote, in order.  [OutOfFuel] stands for a scan that did not end within
    its iterations; by [find_file_signatures_returns] it does not arise. *)
Inductive outcome :=
| Returned (fs : FS) (written : list (str * bytes))
| Raised (fs : FS) (written : list (str * bytes))
| OutOfFuel.

(** The [for i, (...) in enumerate(signatures)] loop. *)
Fixpoint extract_loop (data : bytes) (output_directory : string)
    (signatures : list Hit) (todo : list (nat * Hit)) (fs : FS)
    (written : list (str * bytes)) : outcome :=
  match todo with
  | [] => Returned fs written
  | (i, h) :: todo' =>
      let start := offset h in
      let end_ := resolve_end data signatures i h in
      let file_data := slice data start end_ in
      let filename := extract_filename file_data 0 (extension h) in
      let output_file := lit "extracted_" ++ filename in
      match write_bytes fs output_directory output_file file_data with
      | None => Raised fs written
      | Some fs' =>
          extract_loop data output_directory signatures todo' fs'
                       (written ++ [(output_file, file_data)])
      end
  end.

Definition extract_files_from_image (fs : FS) (image_path : string)
    (output_directory : string) : outcome :=
  match read_bytes fs image_path with
  | None => Raised fs []
  | Some data =>
      match find_file_signatures data with
      | None => OutOfFuel
      | Some [] => Returned fs []
      | Some signatures =>
          extract_loop data output_directory signatures
                       (enumerate signatures) fs []
      end
  end.

End Extractor.

Arguments Returned {FS}.
Arguments Raised {FS}.
Arguments OutOfFuel {FS}.

(** An in-memory file system for running the extractor: every path reads
    as [image], every write succeeds and is appended to [outputs]. *)
Record MemFS := mkMemFS {
  image : bytes;
  outputs : list (str * bytes)
}.

Definition read_mem (fs : MemFS) (p : string) : option bytes :=
  Some (image fs).

Definition write_mem (fs : MemFS) (dir : string) (name : str)
    (content : bytes) : option MemFS :=
  Some (mkMemFS (image fs) (outputs fs ++ [(name, content)])).

Definition carve (data : bytes) : outcome MemFS :=
  extract_files_from_image MemFS read_mem write_mem (mkMemFS data [])
    "image"%string "out"%string.

(** The bytes of an ASCII literal. *)
Definition ascii_bytes (s : string) : bytes :=
  map byte_of_ascii (list_ascii_of_string s).

(** ** The writer of stegno.py *)

Definition SEPARATOR : bytes := [x0d; x0a; x0d; x0a].
Definition FILENAME_SEPARATOR : bytes := [x00].
Definition LENGTH_FIELD_SIZE : nat := 10.

Definition digit_byte (d : Z) : byte :=
  match Byte.of_N (Z.to_N (48 + d)) with
  | Some b => b
  | None => x30
  end.

(** Decimal digits of a non-negative integer, most significant first. *)
Fixpoint decimal_digits (fuel : nat) (n : Z) : bytes :=
  match fuel with
  | O => []
  | S fuel' =>
      (if n <? 10 then [] else decimal_digits fuel' (n / 10))
        ++ [digit_byte (n mod 10)]
  end.

(** [str(n).encode()] for [n >= 0] (a file size); a number has no more
    decimal digits than binary ones, so the fuel is enough
    ([str_of_size_value]). *)
Definition str_of_size (n : Z) : bytes :=
  decimal_digits (S (Z.to_nat (Z.log2 n))) n.

(** [f"{s:<{width}}"]: left-aligned, filled with spaces on the right. *)
Definition ljust (width : nat) (s : bytes) : bytes :=
  s ++ repeat x20 (width - List.length s).


(** A [pathlib] path: its anchor (empty for a relative path) and its
    components after the anchor. *)
Record Path := mkPath {
  anchor : str;
  parts : list str
}.

(** [p.name] and [p.parent]. *)
Definition path_name (p : Path) : str := last (parts p) [].

Definition path_parent (p : Path) : Path :=
  mkPath (anchor p) (removelast (parts p)).

Fixpoint strip_prefix (pre l : list str) : option (list str) :=
  match pre with
  | [] => Some l
  | x :: pre' =>
      match l with
      | [] => None
      | y :: l' => if str_eqb x y then strip_prefix pre' l' else None
      end
  end.

(** [p.relative_to(other)]: the components of [p] below [other];
    [None] is the [ValueError] raised when [p] is not under [other]. *)
Definition relative_to (p other : Path) : option (list str) :=
  if str_eqb (anchor p) (anchor other)
  then strip_prefix (parts other) (parts p)
  else None.

Definition byte_of (n : N) : byte :=
  match of_N n with
  | Some b => b
  | None => x00
  end.

(** The UTF-8 bytes of one character; a surrogate (what a file name that
    is not UTF-8 decodes to) has none. *)
Definition encode_char (c : N) : option bytes :=
  (if c <? 0x80 then Some [byte_of c]
   else if c <? 0x800 then
     Some [byte_of (0xC0 + c / 64); byte_of (0x80 + c mod 64)]
   else if in_range 0xD800 0xDFFF c then None
   else if c <? 0x10000 then
     Some [byte_of (0xE0 + c / 4096); byte_of (0x80 + (c / 64) mod 64);
           byte_of (0x80 + c mod 64)]
   else if c <? 0x110000 then
     Some [byte_of (0xF0 + c / 262144); byte_of (0x80 + (c / 4096) mod 64);
           byte_of (0x80 + (c / 64) mod 64); byte_of (0x80 + c mod 64)]
   else None)%N.

(** [s.encode('utf-8')]; [None] is the [UnicodeEncodeError]. *)
Fixpoint encode_utf8 (s : str) : option bytes :=
  match s with
  | [] => Some []
  | c :: s' =>
      match encode_char c, encode_utf8 s' with
      | Some a, Some b => Some (a ++ b)
      | _, _ => None
      end
  end.

(** A file to hide: its path and the bytes read from it; [st_size] is the
    number of those bytes.  The files have passed [validate_inputs] and
    can be read: failures of the file system itself are left out. *)
Record HiddenFile := mkHidden {
  file_path : Path;
  file_content : bytes
}.

(** The entries [create_zip_with_files] hands to [ZipFile.write], each
    with its [arcname]; [None] is the [ValueError] of [relative_to] for a
    file that is not under the directory of the first one. *)
Fixpoint archive_entries_from (base : Path) (files : list HiddenFile)
  : option (list (list str * bytes)) :=
  match files with
  | [] => Some []
  | file :: files' =>
      match relative_to (file_path file) base with
      | None => None
      | Some arcname =>
          match archive_entries_from base files' with
          | None => None
          | Some entries => Some ((arcname, file_content file) :: entries)
          end
      end
  end.

Definition archive_entries (files : list HiddenFile)
  : option (list (list str * bytes)) :=
  match files with
  | [] => Some []
  | first :: _ =>
      archive_entries_from (path_parent (file_path first)) files
  end.

(** What has been written to the output image when
    [concatenate_image_and_files] ends: all of it, or what was written
    before an exception. *)
Inductive written_image :=
| Complete (out : bytes)
| Broken (out : bytes).

(** What one iteration of [for file_path in files] appends; [None] when
    the name does not encode, which happens before the iteration writes
    anything. *)
Definition write_record (out : bytes) (f : HiddenFile) : option bytes :=
  let file_size := len (file_content f) in
  match encode_utf8 (path_name (file_path f)) with
  | None => None
  | Some file_name =>
      let out1 := out ++ (ljust LENGTH_FIELD_SIZE (str_of_size file_size)
                          ++ file_name ++ FILENAME_SEPARATOR) in
      let out2 := out1 ++ file_content f in
      Some (out2 ++ SEPARATOR)
  end.

Fixpoint write_records (files : list HiddenFile) (out : bytes)
  : written_image :=
  match files with
  | [] => Complete out
  | f :: files' =>
      match write_record out f with
      | None => Broken out
      | Some out' => write_records files' out'
      end
  end.

(** The bytes written to [output_image_path]; [zip] is the content of the
    archive at [zip_path], [None] when [zip_path] is [None]. *)
Definition concatenate_image_and_files (image_data : bytes)
    (zip : option bytes) (files : list HiddenFile) : written_image :=
  let out := image_data in
  let out := match zip with Some z => out ++ z | None => out end in
  write_records files out.


(** How [main] ends once the inputs are validated: it returns, the output
    image holding [output]; or an exception is logged and the process
    exits with status 1, leaving the output image with what was written
    to it, if it was created at all.  (The temporary archive, which is
    removed on success and left behind on failure, is not part of the
    result.) *)
Inductive hide_result :=
| Hidden (output : bytes)
| Failed (output : option bytes).

Section Writer.

(** The bytes [ZipFile] produces for the entries written to it (the
    library is outside the repository). *)
Variable zip_archive : list (list str * bytes) -> bytes.

(** [create_zip_with_files], by the content of the archive it leaves. *)
Definition create_zip_with_files (files : list HiddenFile) : option bytes :=
  option_map zip_archive (archive_entries files).

(** [main] from the creation of the archive on. *)
Definition stegno_main (image_data : bytes)
    (files_to_hide : list HiddenFile) : hide_result :=
  let zip_name :=
    if (1 <? len files_to_hide)
    then option_map Some (create_zip_with_files files_to_hide)
    else Some None in
  match zip_name with
  | None => Failed None
  | Some zip_name =>
      match concatenate_image_and_files image_data zip_name
              (match zip_name with None => files_to_hide | Some _ => [] end)
      with
      | Complete out => Hidden out
      | Broken out => Failed (Some out)
      end
  end.

End Writer.

(** ** Vocabulary of the statements *)

(** Every offset of [data], its end included. *)
Definition positions (data : bytes) : list Z :=
  map Z.of_nat (seq 0 (S (List.length data))).

(** The offsets at which [sub] occurs in [data], ascending. *)
Definition occurrences_from (data sub : bytes) (k : nat) : list Z :=
  filter (occurs_atb data sub)
         (map Z.of_nat (seq k (S (List.length data) - k))).

Definition occurrences (data sub : bytes) : list Z :=
  occurrences_from data sub 0.

(** The hits one catalog entry contributes, and the hit list before the
    final sort. *)
Definition entry_hits (data : bytes) (e : SignatureEntry) : list Hit :=
  map (hit_of e) (occurrences data (magic e)).

Definition unsorted_hits (data : bytes) : list Hit :=
  flat_map (entry_hits data) FILE_SIGNATURES.

Definition at_offset (o : Z) (h : Hit) : bool := offset h =? o.

(** The entries of [cat] whose magic occurs at [o], in the order of [cat]. *)
Definition entries_at (data : bytes) (o : Z) (cat : list SignatureEntry)
  : list SignatureEntry :=
  filter (fun e => occurs_atb data (magic e) o) cat.

(** The order the sort establishes. *)
Definition offset_le (a b : Hit) : Prop := offset a <= offset b.

(** [h] reports signature [sig] at offset [o]. *)
Definition reports (sig : bytes) (o : Z) (h : Hit) : bool :=
  bytes_eqb (signature h) sig && (offset h =? o).

(** The file one iteration of the extraction loop writes: its name and
    its bytes. *)
Definition carved_file (data : bytes) (signatures : list Hit)
    (ih : nat * Hit) : str * bytes :=
  let file_data :=
    slice data (offset (snd ih))
          (resolve_end data signatures (fst ih) (snd ih)) in
  (lit "extracted_" ++ extract_filename file_data 0 (extension (snd ih)),
   file_data).

(** No catalog signature occurs anywhere in [data]. *)
Definition no_signature (data : bytes) : Prop :=
  forall e o, In e FILE_SIGNATURES -> ~ occurs_at data (magic e) o.

Definition no_signatureb (data : bytes) : bool :=
  forallb (fun e => match occurrences data (magic e) with
                    | [] => true
                    | _ :: _ => false
                    end) FILE_SIGNATURES.

(** Buffers the statements are run on. *)
Definition jpg_small : bytes := [xff; xd8; xff; x61; xff; xd9].

Definition jpg_overlapping : bytes := [xff; xd8; xff; xd8; xff; x00].

Definition gif_twice : bytes :=
  ascii_bytes "GIF89a" ++ [x01; x02] ++ ascii_bytes "GIF89a" ++ [x03].

Definition jpg_entry : SignatureEntry :=
  mkEntry [xff; xd8; xff] (lit "jpg") (Some [xff; xd9]).

(** The two-file scenario of the specification: a JPEG with its footer,
    then a PNG with its footer. *)
Definition jpg_then_png : bytes :=
  [xff; xd8; xff] ++ ascii_bytes "payload" ++ [xff; xd9]
    ++ [x89; x50; x4e; x47; x0d; x0a; x1a; x0a] ++ ascii_bytes "x"
    ++ [x49; x45; x4e; x44; xae; x42; x60; x82].

(** A JPEG header followed by a payload that holds no [FF D9]. *)
Definition jpg_without_footer : bytes :=
  [xff; xd8; xff] ++ ascii_bytes "payload".

(** The text after the final [sep] of [s], when [s] holds a [sep]. *)
Fixpoint after_final (sep : N) (s : str) : option str :=
  match s with
  | [] => None
  | c :: s' =>
      match after_final sep s' with
      | Some t => Some t
      | None => if (c =? sep)%N then Some s' else None
      end
  end.

(** A fragment longer than one character whose text after the final ['.']
    is the format tag. *)
Definition qualifies (part ext : str) : Prop :=
  1 < len part /\ exists stem, part = stem ++ DOT :: ext /\ ~ In DOT ext.

Definition qualifiesb (part ext : str) : bool :=
  (1 <? len part)
  && match after_final DOT part with
     | Some t => str_eqb t ext
     | None => false
     end.

(** The fragments the heuristic looks at. *)
Definition fragments (data : bytes) (start : Z) : list str :=
  split_on NUL (decode_utf8_ignore (slice data start (start + 100))).

Definition first_qualifying (parts : list str) (ext : str) : option str :=
  List.find (fun part => qualifiesb part ext) parts.


(** The key a duplicate report would repeat. *)
Definition hit_key (h : Hit) : bytes * Z := (signature h, offset h).

(** ** The rest of extract_hidden_files.py: [main] *)

Section ExtractorMain.

(** Besides reading and writing, [main] asks whether a path exists and is
    a regular file, and creates the output directory ([None]: [mkdir]
    raises). *)
Variable FS : Type.
Variable read_bytes : FS -> string -> option bytes.
Variable write_bytes : FS -> string -> str -> bytes -> option FS.
Variable path_exists : FS -> string -> bool.
Variable path_is_file : FS -> string -> bool.
Variable mkdir : FS -> string -> option FS.

(** How the process ends: [sys.exit(code)], a normal return (status 0),
    an exception nothing catches, or a scan that did not end. *)
Inductive ending :=
| Exit (code : Z) (fs : FS) (written : list (str * bytes))
| Finished (fs : FS) (written : list (str * bytes))
| Uncaught (fs : FS)
| Hung.

(** The [try] block of [main]. *)
Definition try_extract (fs : FS) (image_path output_directory : string)
  : ending :=
  match extract_files_from_image FS read_bytes write_bytes fs image_path
          output_directory with
  | Returned fs' written => Finished fs' written
  | Raised fs' written => Exit 1 fs' written
  | OutOfFuel => Hung
  end.

(** [main()] of extract_hidden_files.py, on [sys.argv] and the current
    directory. *)
Definition extract_main (argv : list string) (cwd : string) (fs : FS)
  : ending :=
  if len argv <? 2 then Exit 1 fs []
  else
    let image_path := nth 1 argv ""%string in
    let output_directory :=
      if 2 <? len argv then nth 2 argv ""%string else cwd in
    if negb (path_exists fs image_path) || negb (path_is_file fs image_path)
    then Exit 1 fs []
    else if negb (path_exists fs output_directory)
    then match mkdir fs output_directory with
         | None => Uncaught fs
         | Some fs' => try_extract fs' image_path output_directory
         end
    else try_extract fs image_path output_directory.

End ExtractorMain.

Arguments Exit {FS}.
Arguments Finished {FS}.
Arguments Uncaught {FS}.
Arguments Hung {FS}.

(** ** The rest of stegno.py *)

(** [str(n)] for any integer. *)
Definition str_of_int (n : Z) : str :=
  if n <? 0 then 45%N :: map to_N (str_of_size (- n))
  else map to_N (str_of_size n).

Definition UNITS : list str :=
  [lit "B"; lit "KiB"; lit "MiB"; lit "GiB"; lit "TiB"; lit "PiB"].

(** The [for unit in ...] loop of [human_readable_size], with the
    [return] after it. *)
Fixpoint size_loop (units : list str) (size : Z) : str :=
  match units with
  | [] => str_of_int size ++ lit " EiB"
  | unit :: units' =>
      if size <? 1024 then str_of_int size ++ lit " " ++ unit
      else size_loop units' (size / 1024)
  end.

Definition human_readable_size (size : Z) : str := size_loop UNITS size.

Section Validation.

Variable path_exists : string -> bool.
Variable path_is_file : string -> bool.

(** [None]: the function returns; [Some p]: it raises
    [FileNotFoundError] for the path [p]. *)
Fixpoint validate_files (files_to_hide : list string) : option string :=
  match files_to_hide with
  | [] => None
  | file_path :: rest =>
      if negb (path_exists file_path) || negb (path_is_file file_path)
      then Some file_path
      else validate_files rest
  end.

Definition validate_inputs (image_path : string)
    (files_to_hide : list string) : option string :=
  if negb (path_exists image_path) || negb (path_is_file image_path)
  then Some image_path
  else validate_files files_to_hide.

End Validation.







(** A relative path of ASCII components. *)
Definition rel_path (components : list string) : Path :=
  mkPath [] (map lit components).

(** A TIFF header at 0 and a GIF header at 4: the catalog meets the GIF
    entry first. *)
Definition tiff_then_gif : bytes :=
  [x49; x49; x2a; x00] ++ ascii_bytes "GIF89a".

Definition zip_entry : SignatureEntry :=
  mkEntry [x50; x4b; x03; x04] (lit "zip") (Some [x50; x4b; x05; x06]).

(** ** demo-email-pass-generator.py *)

(** [string.ascii_lowercase + string.digits]. *)
Definition ALPHABET : str := lit "abcdefghijklmnopqrstuvwxyz0123456789".

Definition NEWLINE : N := 10.
Definition COLON : N := 58.

(** ['\n'.join(lines)]. *)
Fixpoint join_lines (lines : list str) : str :=
  match lines with
  | [] => []
  | [line] => line
  | line :: rest => line ++ NEWLINE :: join_lines rest
  end.

Section Generator.

(** The random source is threaded as a state: [choice r n] is the index
    [random.choices] draws in a population of [n] elements, with the next
    state. *)
Variable rng : Type.
Variable choice : rng -> nat -> nat * rng.

(** [random.choices(population, k=k)]. *)
Fixpoint choices (r : rng) (population : str) (k : nat) : str * rng :=
  match k with
  | O => ([], r)
  | S k' =>
      let (i, r1) := choice r (List.length population) in
      let (rest, r2) := choices r1 population k' in
      (nth i population 0%N :: rest, r2)
  end.

Definition generate_random_string (r : rng) (length : nat) : str * rng :=
  choices r ALPHABET length.

Definition generate_email (r : rng) : str * rng :=
  let (random_string, r1) := generate_random_string r 5 in
  (lit "demo-" ++ random_string ++ lit "@unsigned.sh", r1).

Definition generate_password (r : rng) : str * rng :=
  generate_random_string r 10.

Fixpoint generate_email_password_pairs (r : rng) (num_pairs : nat)
  : list str * rng :=
  match num_pairs with
  | O => ([], r)
  | S n =>
      let (email, r1) := generate_email r in
      let (password, r2) := generate_password r1 in
      let (rest, r3) := generate_email_password_pairs r2 n in
      ((email ++ COLON :: password) :: rest, r3)
  end.

(** What [write_to_file] writes. *)
Definition write_to_file (lines : list str) : str := join_lines lines.

(** The text [main] writes to the list file. *)
Definition generator_main (r : rng) : str :=
  write_to_file (fst (generate_email_password_pairs r 100)).

End Generator.

(** A random source for running the generator: a counter. *)
Definition counter_choice (r n : nat) : nat * nat := ((r mod n)%nat, S r).

(** One line of the list: [demo-<5>@unsigned.sh:<10>] over the alphabet. *)
Definition well_formed_pair (line : str) : Prop :=
  exists user password,
    line = lit "demo-" ++ user ++ lit "@unsigned.sh" ++ COLON :: password /\
    List.length user = 5%nat /\ List.length password = 10%nat /\
    Forall (fun c => In c ALPHABET) user /\
    Forall (fun c => In c ALPHABET) password.

(** A file system with room for a number of files: it holds the image
    and the files written so far, and a write fails once the room is used
    up. *)
Record QuotaFS := mkQuotaFS {
  quota_image : bytes;
  quota_room : nat;
  quota_files : list (str * bytes)
}.

Definition read_quota (fs : QuotaFS) (p : string) : option bytes :=
  Some (quota_image fs).

Definition write_quota (fs : QuotaFS) (dir : string) (name : str)
    (content : bytes) : option QuotaFS :=
  match quota_room fs with
  | O => None
  | S room =>
      Some (mkQuotaFS (quota_image fs) room
                      (quota_files fs ++ [(name, content)]))
  end.

(** A path that exists and is a regular file. *)
Definition regular (path_exists path_is_file : string -> bool) (p : string)
  : Prop :=
  path_exists p = true /\ path_is_file p = true.

(** Case analysis on the entries of the catalog. *)
Ltac each_entry H :=
  cbn [FILE_SIGNATURES In] in H;
  repeat (destruct H as [H|H]; [subst|]); [..|contradiction].

(** ** Searching a buffer *)

Lemma starts_with_iff (sub l : bytes) :
  starts_with sub l = true <-> exists post, l = sub ++ post.
Proof.
  revert l; induction sub as [|x sub IH]; intros l; simpl.
  - split; eauto.
  - destruct l as [|y l].
    + split; [discriminate | intros [post H]; discriminate].
    + rewrite andb_true_iff, IH. split.
      * intros [E [post ->]]. apply byte_dec_bl in E. subst. eauto.
      * intros [post H]. injection H as -> ->.
        split; [now apply byte_dec_lb | eauto].
Qed.

Lemma occurs_atb_iff (data sub : bytes) (o : Z) :
  occurs_atb data sub o = true <-> occurs_at data sub o.
Proof.
  unfold occurs_atb, occurs_at, len.
  rewrite !andb_true_iff, starts_with_iff, !Z.leb_le. split.
  - intros [[H0 H1] [post E]]. split; [assumption|].
    exists (firstn (Z.to_nat o) data), post. split.
    + rewrite <- E. symmetry; apply firstn_skipn.
    + rewrite length_firstn. lia.
  - intros [H0 (pre & post & -> & E)]. split.
    + split; [lia | rewrite length_app; lia].
    + exists post. replace (Z.to_nat o) with (List.length pre) by lia.
      rewrite skipn_app, skipn_all, Nat.sub_diag. reflexivity.
Qed.

Lemma occurs_atb_fits (data sub : bytes) (o : Z) :
  occurs_atb data sub o = true -> 0 <= o /\ o + len sub <= len data.
Proof.
  intros H. apply occurs_atb_iff in H.
  destruct H as [H0 (pre & post & -> & E)]. unfold len in *.
  rewrite !length_app. lia.
Qed.

Lemma find_first_Some (sub l : bytes) (k : nat) :
  find_first sub l = Some k ->
  starts_with sub (skipn k l) = true /\ (k <= List.length l)%nat /\
  forall j, (j < k)%nat -> starts_with sub (skipn j l) = false.
Proof.
  revert k; induction l as [|y l IH]; intros k H.
  - simpl in H. destruct (starts_with sub []) eqn:E; [|discriminate].
    injection H as <-. repeat split; [assumption | lia | lia].
  - cbn [find_first] in H. destruct (starts_with sub (y :: l)) eqn:E.
    + injection H as <-. repeat split; [assumption | lia | lia].
    + destruct (find_first sub l) as [k'|]; [|discriminate].
      injection H as <-. destruct (IH k' eq_refl) as (A & B & C).
      repeat split; [assumption | simpl; lia |].
      intros [|j] Hj; [assumption | apply C; lia].
Qed.

Lemma find_first_None (sub l : bytes) :
  find_first sub l = None ->
  forall j, starts_with sub (skipn j l) = false.
Proof.
  induction l as [|y l IH]; intros H j.
  - simpl in H. destruct (starts_with sub []) eqn:E; [discriminate|].
    now rewrite skipn_nil.
  - cbn [find_first] in H. destruct (starts_with sub (y :: l)) eqn:E;
      [discriminate|].
    destruct (find_first sub l) eqn:F; [discriminate|].
    destruct j as [|j]; [assumption | apply IH; reflexivity].
Qed.

Lemma adjust_index_nonneg (n i : Z) : 0 <= i -> adjust_index n i = i.
Proof. unfold adjust_index. destruct (Z.ltb_spec i 0); lia. Qed.

(** [find] answers [-1] only when nothing occurs from [start] on. *)
Lemma find_absent (data sub : bytes) (s : Z) :
  0 <= s -> find data sub s = -1 ->
  forall j, s <= j -> occurs_atb data sub j = false.
Proof.
  intros Hs H j Hj. unfold find in H. rewrite adjust_index_nonneg in H by lia.
  unfold occurs_atb.
  destruct (Z.ltb_spec (len data) s) as [Hlt|Hle].
  - destruct (Z.leb_spec j (len data)); [lia|]. now rewrite andb_false_r.
  - destruct (find_first sub (skipn (Z.to_nat s) data)) as [k|] eqn:F; [lia|].
    pose proof (find_first_None _ _ F (Z.to_nat j - Z.to_nat s)) as N.
    rewrite skipn_skipn in N.
    replace (Z.to_nat j - Z.to_nat s + Z.to_nat s)%nat with (Z.to_nat j)
      in N by lia.
    rewrite N. apply andb_false_r.
Qed.

(** Any other answer is the lowest offset [>= start] of an occurrence. *)
Lemma find_present (data sub : bytes) (s r : Z) :
  0 <= s -> find data sub s = r -> r <> -1 ->
  s <= r /\ occurs_atb data sub r = true /\
  forall j, s <= j < r -> occurs_atb data sub j = false.
Proof.
  intros Hs H Hr. unfold find in H. rewrite adjust_index_nonneg in H by lia.
  destruct (Z.ltb_spec (len data) s) as [Hlt|Hle]; [lia|].
  destruct (find_first sub (skipn (Z.to_nat s) data)) as [k|] eqn:F; [|lia].
  destruct (find_first_Some _ _ _ F) as (A & B & C).
  rewrite length_skipn in B. unfold len in Hle. subst r.
  split; [lia|]. split.
  - unfold occurs_atb, len. rewrite skipn_skipn in A.
    replace (Z.to_nat (s + Z.of_nat k)) with (k + Z.to_nat s)%nat by lia.
    rewrite A, andb_true_r, andb_true_iff, !Z.leb_le. lia.
  - intros j Hj. unfold occurs_atb.
    pose proof (C (Z.to_nat j - Z.to_nat s)%nat ltac:(lia)) as N.
    rewrite skipn_skipn in N.
    replace (Z.to_nat j - Z.to_nat s + Z.to_nat s)%nat with (Z.to_nat j)
      in N by lia.
    rewrite N. apply andb_false_r.
Qed.

(** The first occurrence at or after [s], stated on its own. *)
Lemma find_first_occurrence (data sub : bytes) (s f : Z) :
  0 <= s -> s <= f -> occurs_atb data sub f = true ->
  (forall j, s <= j < f -> occurs_atb data sub j = false) ->
  find data sub s = f.
Proof.
  intros Hs Hf Ho Hmin.
  destruct (Z.eq_dec (find data sub s) (-1)) as [E|E].
  - rewrite (find_absent _ _ _ Hs E f Hf) in Ho. discriminate.
  - destruct (find_present _ _ _ _ Hs eq_refl E) as (A & B & C).
    destruct (Z.lt_trichotomy (find data sub s) f) as [L|[L|L]].
    + rewrite Hmin in B by lia. discriminate.
    + assumption.
    + rewrite C in Ho by lia. discriminate.
Qed.

(** ** The scanning loop *)

Lemma filter_none {A : Type} (f : A -> bool) (l : list A) :
  (forall x, In x l -> f x = false) -> filter f l = [].
Proof.
  induction l as [|a l IH]; intros H; simpl; [reflexivity|].
  rewrite (H a (or_introl eq_refl)). apply IH. intros x Hx. apply H. now right.
Qed.

Lemma in_positions_from (k m : nat) (j : Z) :
  In j (map Z.of_nat (seq k m)) <-> Z.of_nat k <= j < Z.of_nat (k + m).
Proof.
  rewrite in_map_iff. split.
  - intros (i & <- & Hi). apply in_seq in Hi. lia.
  - intros Hj. exists (Z.to_nat j). split; [lia|]. apply in_seq. lia.
Qed.

Section Scan.

Variable data : bytes.
Variable sub : bytes.

Lemma occurrences_from_skip (k r : nat) :
  (k <= r)%nat -> (r <= S (List.length data))%nat ->
  (forall j, Z.of_nat k <= j < Z.of_nat r -> occurs_atb data sub j = false) ->
  occurrences_from data sub k = occurrences_from data sub r.
Proof.
  intros Hk Hr Hno. unfold occurrences_from.
  set (n := List.length data) in *.
  replace (S n - k)%nat with ((r - k) + (S n - r))%nat by lia.
  rewrite seq_app, map_app, filter_app.
  replace (k + (r - k))%nat with r by lia.
  rewrite filter_none; [reflexivity|].
  intros j Hj. apply in_positions_from in Hj. apply Hno. lia.
Qed.

Lemma occurrences_from_hit (r : nat) :
  occurs_atb data sub (Z.of_nat r) = true ->
  occurrences_from data sub r
  = Z.of_nat r :: occurrences_from data sub (S r).
Proof.
  intros Ho. unfold occurrences_from.
  set (n := List.length data) in *.
  assert (r <= n)%nat as Hr.
  { apply occurs_atb_fits in Ho. unfold len in Ho. subst n. lia. }
  replace (S n - r)%nat with (S (S n - S r)) by lia.
  cbn [seq map filter]. now rewrite Ho.
Qed.

Lemma occurrences_from_none (k : nat) :
  (forall j, Z.of_nat k <= j -> occurs_atb data sub j = false) ->
  occurrences_from data sub k = [].
Proof.
  intros Hno. apply filter_none. intros j Hj.
  apply in_positions_from in Hj. apply Hno. lia.
Qed.

Lemma in_occurrences (o : Z) :
  In o (occurrences data sub) <-> occurs_atb data sub o = true.
Proof.
  unfold occurrences, occurrences_from. rewrite filter_In, in_positions_from.
  split; [tauto|]. intros H. split; [|assumption].
  apply occurs_atb_fits in H. unfold len in H. lia.
Qed.

End Scan.

(** The loop started at the first occurrence from [k] on appends one hit per
    occurrence from [k] on, and ends within [len(data) + 1 - k] iterations. *)
Lemma scan_while_spec (data : bytes) (e : SignatureEntry) (fuel k : nat)
    (acc : list Hit) :
  (k <= S (List.length data))%nat -> (S (List.length data) - k <= fuel)%nat ->
  scan_while fuel data e (find data (magic e) (Z.of_nat k)) acc
  = Some (acc ++ map (hit_of e) (occurrences_from data (magic e) k)).
Proof.
  revert k acc. induction fuel as [|fuel IH]; intros k acc Hk Hfuel;
    destruct (Z.eq_dec (find data (magic e) (Z.of_nat k)) (-1)) as [E|E].
  1,3: rewrite E; cbn [scan_while]; rewrite Z.eqb_refl;
       rewrite occurrences_from_none by
         (intros j Hj; apply (find_absent _ _ _ (Nat2Z.is_nonneg k) E); lia);
       now rewrite app_nil_r.
  all: destruct (find_present _ _ _ _ (Nat2Z.is_nonneg k) eq_refl E)
         as (A & B & C);
       pose proof (occurs_atb_fits _ _ _ B) as F; unfold len in F.
  - lia.
  - remember (find data (magic e) (Z.of_nat k)) as r eqn:R.
    cbn [scan_while]. destruct (Z.eqb_spec r (-1)) as [|_]; [contradiction|].
    assert (r = Z.of_nat (Z.to_nat r)) as Rn by lia.
    replace (r + 1) with (Z.of_nat (S (Z.to_nat r))) by lia.
    rewrite IH by lia.
    rewrite (occurrences_from_skip data (magic e) k (Z.to_nat r))
      by (try lia; intros j Hj; apply C; lia).
    rewrite (occurrences_from_hit data (magic e) (Z.to_nat r))
      by (now rewrite <- Rn).
    rewrite <- Rn, <- app_assoc. reflexivity.
Qed.

Lemma scan_catalog_spec (data : bytes) (cat : list SignatureEntry)
    (acc : list Hit) :
  scan_catalog (S (List.length data)) data cat acc
  = Some (acc ++ flat_map (entry_hits data) cat).
Proof.
  revert acc. induction cat as [|e cat IH]; intros acc; cbn [scan_catalog].
  - now rewrite app_nil_r.
  - change 0 with (Z.of_nat 0). rewrite scan_while_spec by lia.
    rewrite IH. cbn [flat_map]. now rewrite <- app_assoc.
Qed.

(** The scanner returns: it never runs out of iterations, and its result is
    the sorted list of the hits of every entry. *)
Lemma find_file_signatures_returns (data : bytes) :
  find_file_signatures data = Some (sort_by_offset (unsorted_hits data)).
Proof.
  unfold find_file_signatures. now rewrite scan_catalog_spec.
Qed.

(** ** The stable sort by offset *)

Lemma insert_by_offset_perm (h : Hit) (l : list Hit) :
  Permutation (insert_by_offset h l) (h :: l).
Proof.
  induction l as [|h' l IH]; cbn [insert_by_offset]; [reflexivity|].
  destruct (offset h <=? offset h'); [reflexivity|].
  rewrite IH. apply perm_swap.
Qed.

Lemma sort_by_offset_perm (l : list Hit) : Permutation (sort_by_offset l) l.
Proof.
  induction l as [|h l IH]; cbn [sort_by_offset]; [reflexivity|].
  rewrite insert_by_offset_perm. now constructor.
Qed.

Lemma insert_by_offset_sorted (h : Hit) (l : list Hit) :
  StronglySorted offset_le l -> StronglySorted offset_le (insert_by_offset h l).
Proof.
  induction l as [|h' l IH]; intros S; cbn [insert_by_offset].
  - repeat constructor.
  - inversion S as [|? ? S' F]; subst.
    destruct (Z.leb_spec (offset h) (offset h')) as [L|L].
    + constructor; [assumption|]. constructor; [exact L|].
      eapply Forall_impl; [|exact F]. unfold offset_le. intros; lia.
    + constructor; [now apply IH|].
      eapply Permutation_Forall; [symmetry; apply insert_by_offset_perm|].
      constructor; [unfold offset_le; lia | assumption].
Qed.

Lemma sort_by_offset_sorted (l : list Hit) :
  StronglySorted offset_le (sort_by_offset l).
Proof.
  induction l as [|h l IH]; cbn [sort_by_offset]; [constructor|].
  now apply insert_by_offset_sorted.
Qed.

(** Stability: the hits at one offset keep the order they were found in. *)
Lemma insert_by_offset_at (o : Z) (h : Hit) (l : list Hit) :
  filter (at_offset o) (insert_by_offset h l) = filter (at_offset o) (h :: l).
Proof.
  induction l as [|h' l IH]; cbn [insert_by_offset]; [reflexivity|].
  destruct (Z.leb_spec (offset h) (offset h')) as [L|L]; [reflexivity|].
  cbn [filter] in *. rewrite IH. unfold at_offset.
  destruct (Z.eqb_spec (offset h) o), (Z.eqb_spec (offset h') o);
    try reflexivity; lia.
Qed.

Lemma sort_by_offset_stable (o : Z) (l : list Hit) :
  filter (at_offset o) (sort_by_offset l) = filter (at_offset o) l.
Proof.
  induction l as [|h l IH]; cbn [sort_by_offset]; [reflexivity|].
  rewrite insert_by_offset_at. cbn [filter]. now rewrite IH.
Qed.

(** ** What the scanner reports *)

Lemma filter_flat_map {A B : Type} (p : B -> bool) (f : A -> list B)
    (l : list A) :
  filter p (flat_map f l) = flat_map (fun a => filter p (f a)) l.
Proof.
  induction l as [|a l IH]; cbn [flat_map]; [reflexivity|].
  now rewrite filter_app, IH.
Qed.

Lemma filter_is (o : Z) (l : list Z) :
  NoDup l ->
  filter (fun j => j =? o) l = if existsb (fun j => j =? o) l then [o] else [].
Proof.
  induction 1 as [|a l Hna Hnd IH]; cbn [filter existsb]; [reflexivity|].
  destruct (Z.eqb_spec a o) as [->|Ne]; cbn [orb]; [|exact IH].
  rewrite filter_none; [reflexivity|].
  intros x Hx. destruct (Z.eqb_spec x o); [subst; contradiction | reflexivity].
Qed.

Lemma occurrences_NoDup (data sub : bytes) : NoDup (occurrences data sub).
Proof.
  apply NoDup_filter.
  generalize (seq_NoDup (S (List.length data) - 0) 0).
  generalize (seq 0 (S (List.length data) - 0)) as l.
  induction 1 as [|a l Hna Hnd IH]; cbn [map]; constructor; [|exact IH].
  rewrite in_map_iff. intros (b & E & Hb). apply Nat2Z.inj in E. now subst.
Qed.

Lemma filter_positions_sorted (p : Z -> bool) (m k : nat) :
  StronglySorted Z.lt (filter p (map Z.of_nat (seq k m))).
Proof.
  revert k; induction m as [|m IH]; intros k; cbn [seq map filter];
    [constructor|].
  destruct (p (Z.of_nat k)); [|apply IH].
  constructor; [apply IH|]. apply Forall_forall. intros j Hj.
  apply filter_In in Hj. destruct Hj as [Hj _].
  apply in_positions_from in Hj. lia.
Qed.

Lemma occurrences_sorted (data sub : bytes) :
  StronglySorted Z.lt (occurrences data sub).
Proof. apply filter_positions_sorted. Qed.

(** The hits of one entry at one offset. *)
Lemma entry_hits_at (data : bytes) (e : SignatureEntry) (o : Z) :
  filter (at_offset o) (entry_hits data e)
  = if occurs_atb data (magic e) o then [hit_of e o] else [].
Proof.
  unfold entry_hits.
  rewrite filter_map_swap.
  change (fun a => at_offset o (hit_of e a)) with (fun j => j =? o).
  rewrite filter_is by apply occurrences_NoDup.
  destruct (occurs_atb data (magic e) o) eqn:E.
  - replace (existsb _ _) with true; [reflexivity|].
    symmetry. apply existsb_exists. exists o. split; [|apply Z.eqb_refl].
    now apply in_occurrences.
  - replace (existsb _ _) with false; [reflexivity|].
    symmetry. apply not_true_is_false. intros H.
    apply existsb_exists in H. destruct H as (j & Hj & Ej).
    apply Z.eqb_eq in Ej. subst j. apply in_occurrences in Hj. congruence.
Qed.

Lemma unsorted_hits_at (data : bytes) (o : Z) :
  filter (at_offset o) (unsorted_hits data)
  = map (fun e => hit_of e o) (entries_at data o FILE_SIGNATURES).
Proof.
  unfold unsorted_hits, entries_at. rewrite filter_flat_map.
  induction FILE_SIGNATURES as [|e cat IH]; cbn [flat_map filter map];
    [reflexivity|].
  rewrite entry_hits_at, IH.
  now destruct (occurs_atb data (magic e) o).
Qed.

(** Every reported hit is a catalog entry occurring at the hit's offset. *)
Lemma in_unsorted_hits (data : bytes) (h : Hit) :
  In h (unsorted_hits data) <->
  exists e, In e FILE_SIGNATURES /\ h = hit_of e (offset h) /\
            occurs_atb data (magic e) (offset h) = true.
Proof.
  unfold unsorted_hits, entry_hits. rewrite in_flat_map. split.
  - intros (e & He & Hh). apply in_map_iff in Hh.
    destruct Hh as (o & <- & Ho). apply in_occurrences in Ho. now exists e.
  - intros (e & He & Hh & Ho). exists e. split; [assumption|].
    rewrite Hh. apply in_map. now apply in_occurrences.
Qed.

Lemma in_sorted_hits (data : bytes) (h : Hit) :
  In h (sort_by_offset (unsorted_hits data)) <-> In h (unsorted_hits data).
Proof.
  split; apply Permutation_in;
    [apply sort_by_offset_perm | symmetry; apply sort_by_offset_perm].
Qed.

(** ** The catalog *)

Lemma bytes_eqb_iff (a b : bytes) : bytes_eqb a b = true <-> a = b.
Proof.
  revert b; induction a as [|x a IH]; intros [|y b]; cbn [bytes_eqb];
    try (split; [discriminate | discriminate]); [tauto|].
  rewrite andb_true_iff, IH. split.
  - intros [E ->]. apply byte_dec_bl in E. now subst.
  - intros H. injection H as -> ->. split; [now apply byte_dec_lb | reflexivity].
Qed.

(** The keys of the dictionary are pairwise different. *)
Lemma catalog_magic_unique (e : SignatureEntry) :
  In e FILE_SIGNATURES ->
  filter (fun e' => bytes_eqb (magic e') (magic e)) FILE_SIGNATURES = [e].
Proof. intros H. each_entry H; reflexivity. Qed.

(** A footer of the catalog is not empty and is at most one byte longer
    than the magic it belongs to. *)
Lemma catalog_footer_size (e : SignatureEntry) (ft : bytes) :
  In e FILE_SIGNATURES -> entry_footer e = Some ft ->
  truthy (Some ft) = Some ft /\ len ft - 1 <= len (magic e).
Proof.
  intros H E. each_entry H; cbn in E; try discriminate;
    injection E as <-; split; (reflexivity || (cbv; discriminate)).
Qed.

Lemma filter_andb {A : Type} (f g : A -> bool) (l : list A) :
  filter (fun x => f x && g x) l = filter f (filter g l).
Proof.
  induction l as [|a l IH]; cbn [filter]; [reflexivity|].
  destruct (g a); cbn [filter]; rewrite ?andb_true_r, ?andb_false_r, IH;
    reflexivity.
Qed.

Lemma filter_swap {A : Type} (f g : A -> bool) (l : list A) :
  filter f (filter g l) = filter g (filter f l).
Proof.
  rewrite <- !filter_andb. apply filter_ext. intros a. apply andb_comm.
Qed.

(** The reports of one signature at one offset, in the scanner's result. *)
Lemma sorted_hits_reports (data : bytes) (e : SignatureEntry) (o : Z) :
  In e FILE_SIGNATURES ->
  filter (reports (magic e) o) (sort_by_offset (unsorted_hits data))
  = if occurs_atb data (magic e) o then [hit_of e o] else [].
Proof.
  intros He. unfold reports.
  rewrite (filter_andb (fun h => bytes_eqb (signature h) (magic e))
                       (fun h => offset h =? o)).
  change (fun h => offset h =? o) with (at_offset o).
  rewrite sort_by_offset_stable, unsorted_hits_at, filter_map_swap.
  cbn [hit_of signature]. unfold entries_at.
  rewrite filter_swap, (catalog_magic_unique e He). cbn [filter].
  now destruct (occurs_atb data (magic e) o).
Qed.

(** ** Claims about the scanner *)

(** C4.  [find_file_signatures] returns, and its result holds one hit for
    every occurrence of every catalog signature, at every offset: a hit is
    a catalog entry occurring at the hit's offset, and for an entry [e] and
    an offset [o] the hits reporting [e]'s signature at [o] are exactly
    [hit_of e o] when the signature occurs there (overlapping another
    occurrence or not) and none when it does not. *)
Theorem find_file_signatures_one_hit_per_occurrence (data : bytes) :
  exists hits,
    find_file_signatures data = Some hits /\
    (forall h, In h hits ->
       exists e, In e FILE_SIGNATURES /\ h = hit_of e (offset h) /\
                 occurs_at data (magic e) (offset h)) /\
    (forall e o, In e FILE_SIGNATURES ->
       (occurs_at data (magic e) o ->
          filter (reports (magic e) o) hits = [hit_of e o]) /\
       (~ occurs_at data (magic e) o ->
          filter (reports (magic e) o) hits = [])).
Proof.
  exists (sort_by_offset (unsorted_hits data)).
  split; [apply find_file_signatures_returns|]. split.
  - intros h Hh. apply in_sorted_hits, in_unsorted_hits in Hh.
    destruct Hh as (e & He & Eh & Ho). exists e.
    split; [assumption|]. split; [assumption | now apply occurs_atb_iff].
  - intros e o He. rewrite (sorted_hits_reports data e o He).
    split; intros Ho.
    + apply occurs_atb_iff in Ho. now rewrite Ho.
    + destruct (occurs_atb data (magic e) o) eqn:E; [|reflexivity].
      apply occurs_atb_iff in E. contradiction.
Qed.

(** Two overlapping occurrences of the JPEG magic, at 0 and at 2. *)
Lemma find_file_signatures_one_hit_per_occurrence_witness :
  exists hits,
    find_file_signatures jpg_overlapping = Some hits /\
    filter (reports (magic jpg_entry) 0) hits = [hit_of jpg_entry 0] /\
    filter (reports (magic jpg_entry) 2) hits = [hit_of jpg_entry 2] /\
    filter (reports (magic jpg_entry) 1) hits = [].
Proof.
  destruct (find_file_signatures_one_hit_per_occurrence jpg_overlapping)
    as (hits & E & _ & H).
  assert (In jpg_entry FILE_SIGNATURES) as I
      by (do 3 right; left; reflexivity).
  exists hits. split; [exact E|]. split; [|split].
  - apply (H jpg_entry 0 I). apply occurs_atb_iff. reflexivity.
  - apply (H jpg_entry 2 I). apply occurs_atb_iff. reflexivity.
  - apply (H jpg_entry 1 I). intros B. apply occurs_atb_iff in B.
    discriminate B.
Defined.

(** C5.  The result of [find_file_signatures] is in non-decreasing offset
    order, and the hits at any one offset are those of the catalog entries
    occurring there, in the catalog's iteration order. *)
Theorem find_file_signatures_sorted_stable (data : bytes) :
  exists hits,
    find_file_signatures data = Some hits /\
    StronglySorted offset_le hits /\
    forall o, filter (at_offset o) hits
              = map (fun e => hit_of e o) (entries_at data o FILE_SIGNATURES).
Proof.
  exists (sort_by_offset (unsorted_hits data)).
  split; [apply find_file_signatures_returns|].
  split; [apply sort_by_offset_sorted|].
  intros o. rewrite sort_by_offset_stable. apply unsorted_hits_at.
Qed.

Lemma catalog_NoDup : NoDup (map magic FILE_SIGNATURES).
Proof.
  cbn. repeat (constructor; [cbn [In]; intuition discriminate|]). constructor.
Qed.

Lemma entry_hits_keys (data : bytes) (e : SignatureEntry) :
  map hit_key (entry_hits data e)
  = map (fun o => (magic e, o)) (occurrences data (magic e)).
Proof. unfold entry_hits. now rewrite map_map. Qed.

Lemma unsorted_keys_NoDup (data : bytes) (cat : list SignatureEntry) :
  NoDup (map magic cat) ->
  NoDup (map hit_key (flat_map (entry_hits data) cat)).
Proof.
  induction cat as [|e cat IH]; cbn [flat_map map]; intros N; [constructor|].
  inversion N as [|? ? Hna Hnd]; subst.
  rewrite map_app, entry_hits_keys. apply NoDup_app.
  - generalize (occurrences_NoDup data (magic e)).
    induction 1 as [|o l Ho Hl IHl]; cbn [map]; constructor; [|exact IHl].
    rewrite in_map_iff. intros (o' & E & Ho'). injection E as ->. contradiction.
  - now apply IH.
  - intros [sig o] H1 H2. apply in_map_iff in H1. destruct H1 as (o1 & E1 & _).
    injection E1 as <- <-. apply in_map_iff in H2.
    destruct H2 as (h & Eh & Hh). apply in_flat_map in Hh.
    destruct Hh as (e' & He' & Hh). apply in_map_iff in Hh.
    destruct Hh as (o' & <- & _). injection Eh as Em _.
    apply Hna. rewrite <- Em. now apply in_map.
Qed.

(** C10.  The result of [find_file_signatures] repeats no (signature,
    offset) pair, and the loop over one catalog entry ends having appended
    hits of that entry's signature at strictly increasing offsets. *)
Theorem find_file_signatures_no_duplicates (data : bytes) :
  exists hits,
    find_file_signatures data = Some hits /\
    NoDup (map hit_key hits) /\
    forall e, In e FILE_SIGNATURES ->
      exists found,
        scan_while (S (List.length data)) data e (find data (magic e) 0) []
        = Some found /\
        StronglySorted Z.lt (map offset found) /\
        Forall (fun h => signature h = magic e) found.
Proof.
  exists (sort_by_offset (unsorted_hits data)).
  split; [apply find_file_signatures_returns|]. split.
  - eapply Permutation_NoDup.
    + apply Permutation_map. symmetry. apply sort_by_offset_perm.
    + apply unsorted_keys_NoDup, catalog_NoDup.
  - intros e _. exists (entry_hits data e). split; [|split].
    + change 0 with (Z.of_nat 0). now rewrite scan_while_spec by lia.
    + unfold entry_hits. rewrite map_map. cbn [hit_of offset].
      rewrite map_id. apply occurrences_sorted.
    + unfold entry_hits. apply Forall_forall. intros h Hh.
      apply in_map_iff in Hh. now destruct Hh as (o & <- & _).
Qed.

Lemma find_file_signatures_no_duplicates_witness :
  exists found,
    scan_while (S (List.length jpg_overlapping)) jpg_overlapping jpg_entry
               (find jpg_overlapping (magic jpg_entry) 0) []
    = Some found /\
    StronglySorted Z.lt (map offset found).
Proof.
  destruct (find_file_signatures_no_duplicates jpg_overlapping)
    as (hits & _ & _ & H).
  destruct (H jpg_entry) as (found & E & S & _).
  - do 3 right; left; reflexivity.
  - now exists found.
Defined.

(** ** The boundary resolver *)

Lemma find_nothing (data sub : bytes) (s : Z) :
  0 <= s -> (forall j, s <= j -> occurs_atb data sub j = false) ->
  find data sub s = -1.
Proof.
  intros Hs Hno. destruct (Z.eq_dec (find data sub s) (-1)) as [E|E];
    [assumption|].
  destruct (find_present _ _ _ _ Hs eq_refl E) as (A & B & _).
  rewrite Hno in B by assumption. discriminate.
Qed.

(** The hits the scanner returns come from the catalog. *)
Lemma returned_hit (data : bytes) (hits : list Hit) (i : nat) (h : Hit) :
  find_file_signatures data = Some hits -> nth_error hits i = Some h ->
  exists e, In e FILE_SIGNATURES /\ h = hit_of e (offset h) /\
            occurs_atb data (magic e) (offset h) = true.
Proof.
  rewrite find_file_signatures_returns. intros E Hn. injection E as <-.
  apply nth_error_In in Hn. now apply in_sorted_hits, in_unsorted_hits in Hn.
Qed.

Lemma returned_hit_fits (data : bytes) (hits : list Hit) (i : nat) (h : Hit) :
  find_file_signatures data = Some hits -> nth_error hits i = Some h ->
  0 <= offset h <= len data.
Proof.
  intros E Hn. destruct (returned_hit _ _ _ _ E Hn) as (e & _ & _ & Ho).
  apply occurs_atb_fits in Ho. unfold len in *. lia.
Qed.

Lemma returned_hit_footer (data : bytes) (hits : list Hit) (i : nat)
    (h : Hit) (ft : bytes) :
  find_file_signatures data = Some hits -> nth_error hits i = Some h ->
  footer h = Some ft ->
  truthy (footer h) = Some ft /\ len ft - 1 <= len data.
Proof.
  intros E Hn Hf. destruct (returned_hit _ _ _ _ E Hn) as (e & He & Eh & Ho).
  rewrite Eh in Hf. cbn [hit_of footer] in Hf.
  destruct (catalog_footer_size e ft He Hf) as [T L].
  apply occurs_atb_fits in Ho. rewrite Eh. cbn [hit_of footer]. rewrite Hf.
  split; [exact T|]. unfold len in *. lia.
Qed.

(** The three cases of [resolve_end]. *)
Lemma resolve_end_footer_found (data : bytes) (hits : list Hit) (i : nat)
    (h : Hit) (ft : bytes) (f : Z) :
  truthy (footer h) = Some ft -> 0 <= offset h <= f ->
  occurs_atb data ft f = true ->
  (forall j, offset h <= j < f -> occurs_atb data ft j = false) ->
  resolve_end data hits i h = f + len ft.
Proof.
  intros T Hf Ho Hmin. unfold resolve_end. rewrite T.
  now rewrite (find_first_occurrence data ft (offset h) f) by (assumption || lia).
Qed.

Lemma resolve_end_footer_absent (data : bytes) (hits : list Hit) (i : nat)
    (h : Hit) (ft : bytes) :
  truthy (footer h) = Some ft -> 0 <= offset h ->
  (forall j, offset h <= j -> occurs_atb data ft j = false) ->
  resolve_end data hits i h = len ft - 1.
Proof.
  intros T H0 Hno. unfold resolve_end. rewrite T.
  rewrite find_nothing by assumption. lia.
Qed.

Lemma resolve_end_no_footer (data : bytes) (hits : list Hit) (i : nat)
    (h : Hit) :
  footer h = None ->
  resolve_end data hits i h
  = match nth_error hits (S i) with
    | Some next => offset next
    | None => len data
    end.
Proof.
  intros Hf. unfold resolve_end, len. rewrite Hf. cbn [truthy].
  replace (i + 1)%nat with (S i) by lia.
  destruct (Z.ltb_spec (Z.of_nat i + 1) (Z.of_nat (List.length hits))) as [L|L].
  - destruct (nth_error hits (S i)) as [next|] eqn:N.
    + now rewrite (nth_error_nth _ _ _ N).
    + apply nth_error_None in N. lia.
  - destruct (nth_error hits (S i)) as [next|] eqn:N; [|reflexivity].
    assert (S i < List.length hits)%nat by (apply nth_error_Some; congruence).
    lia.
Qed.

(** ** Claims about the resolver *)

Lemma sorted_next (l : list Hit) (i : nat) (h next : Hit) :
  StronglySorted offset_le l -> nth_error l i = Some h ->
  nth_error l (S i) = Some next -> offset h <= offset next.
Proof.
  intros Hs. revert i. induction Hs as [|a l Hs IH F]; intros i Hh Hn.
  - now destruct i.
  - destruct i as [|i].
    + injection Hh as <-. change (nth_error l 0 = Some next) in Hn.
      rewrite Forall_forall in F. apply F. eapply nth_error_In, Hn.
    + exact (IH i Hh Hn).
Qed.

Lemma span_bytes (data : bytes) (a b : Z) :
  0 <= a <= b -> b <= len data ->
  slice data a b = firstn (Z.to_nat (b - a)) (skipn (Z.to_nat a) data) /\
  len (slice data a b) = b - a.
Proof.
  intros Ha Hb. unfold slice. rewrite !adjust_index_nonneg by lia.
  rewrite !Z.min_l by lia. split; [reflexivity|].
  unfold len in *. rewrite length_firstn, length_skipn. lia.
Qed.

(** C3.  The hit list is sorted by offset, and for a hit in it whose
    catalog entry has no footer, the resolved end is the offset of the
    next hit of the list, which is not before the hit's own offset, or
    the length of the buffer when the hit is the last one; so the span of
    a no-footer hit at [a] followed by a hit at [b] is [[a, b)], the
    [b - a] bytes of the buffer from [a] on. *)
Theorem resolve_end_without_footer (data : bytes) :
  exists hits,
    find_file_signatures data = Some hits /\
    StronglySorted offset_le hits /\
    forall i h, nth_error hits i = Some h -> footer h = None ->
      match nth_error hits (S i) with
      | Some next =>
          offset h <= offset next /\
          resolve_end data hits i h = offset next /\
          slice data (offset h) (resolve_end data hits i h)
          = firstn (Z.to_nat (offset next - offset h))
                   (skipn (Z.to_nat (offset h)) data) /\
          len (slice data (offset h) (resolve_end data hits i h))
          = offset next - offset h
      | None => resolve_end data hits i h = len data
      end.
Proof.
  exists (sort_by_offset (unsorted_hits data)).
  pose proof (find_file_signatures_returns data) as E.
  pose proof (sort_by_offset_sorted (unsorted_hits data)) as Hs.
  split; [exact E|]. split; [exact Hs|]. intros i h Hn Hf.
  rewrite (resolve_end_no_footer data _ i h Hf).
  destruct (nth_error (sort_by_offset (unsorted_hits data)) (S i))
    as [next|] eqn:N; [|reflexivity].
  pose proof (sorted_next _ i h next Hs Hn N) as Le.
  pose proof (returned_hit_fits _ _ _ _ E Hn) as Hfit.
  pose proof (returned_hit_fits _ _ _ _ E N) as Nfit.
  split; [exact Le|]. split; [reflexivity|].
  apply span_bytes; lia.
Qed.

(** A TIFF header at 0 and a GIF89a header at 4, in a buffer of 10 bytes:
    the scan meets the GIF entry first, the sorted list has the TIFF hit
    first, with span [[0, 4)]. *)
Lemma resolve_end_without_footer_witness :
  exists h0 h1,
    find_file_signatures tiff_then_gif = Some [h0; h1] /\
    extension h0 = lit "tiff" /\ offset h0 = 0 /\
    resolve_end tiff_then_gif [h0; h1] 0 h0 = 4 /\
    slice tiff_then_gif 0 (resolve_end tiff_then_gif [h0; h1] 0 h0)
    = firstn 4 tiff_then_gif /\
    extension h1 = lit "gif" /\ offset h1 = 4 /\
    resolve_end tiff_then_gif [h0; h1] 1 h1 = 10.
Proof.
  destruct (resolve_end_without_footer tiff_then_gif) as (hits & E & _ & H).
  vm_compute in E. injection E as <-.
  eexists _, _. split; [vm_compute; reflexivity|].
  split; [reflexivity|]. split; [reflexivity|].
  destruct (H 0%nat _ eq_refl eq_refl) as (_ & R0 & B0 & _).
  split; [exact R0|]. split; [exact B0|].
  split; [reflexivity|]. split; [reflexivity|].
  exact (H 1%nat _ eq_refl eq_refl).
Defined.

(** C2.  For a hit whose catalog entry has a footer, when the search from
    the hit's offset finds the footer at [f] (its first occurrence at or
    after the offset), the resolved end is [f + len(footer)]. *)
Theorem resolve_end_at_footer (data : bytes) :
  exists hits,
    find_file_signatures data = Some hits /\
    forall i h ft f,
      nth_error hits i = Some h -> footer h = Some ft ->
      offset h <= f -> occurs_at data ft f ->
      (forall j, offset h <= j < f -> ~ occurs_at data ft j) ->
      resolve_end data hits i h = f + len ft.
Proof.
  destruct (find_file_signatures data) as [hits|] eqn:E;
    [|now rewrite find_file_signatures_returns in E].
  exists hits. split; [reflexivity|].
  intros i h ft f Hn Hf Hle Ho Hmin.
  destruct (returned_hit_footer _ _ _ _ _ E Hn Hf) as [T _].
  pose proof (returned_hit_fits _ _ _ _ E Hn) as Hfit.
  apply (resolve_end_footer_found data hits i h ft f T); [lia | |].
  - now apply occurs_atb_iff.
  - intros j Hj. apply not_true_is_false. intros B.
    apply occurs_atb_iff in B. exact (Hmin j Hj B).
Qed.

(** A JPEG header, one byte, the footer at 4: the end is 6. *)
Lemma resolve_end_at_footer_witness :
  exists h,
    find_file_signatures jpg_small = Some [h] /\
    footer h = Some [xff; xd9] /\
    resolve_end jpg_small [h] 0 h = 4 + 2.
Proof.
  destruct (resolve_end_at_footer jpg_small) as (hits & E & H).
  vm_compute in E. injection E as <-.
  eexists. split; [vm_compute; reflexivity|]. split; [reflexivity|].
  apply (H 0%nat _ [xff; xd9] 4 eq_refl eq_refl).
  - cbn. lia.
  - apply occurs_atb_iff. reflexivity.
  - cbn [offset]. intros j Hj B. apply occurs_atb_iff in B.
    assert (j = 0 \/ j = 1 \/ j = 2 \/ j = 3) as C by lia.
    destruct C as [-> | [-> | [-> | ->]]]; discriminate B.
Defined.

(** C6.  Whatever the case (footer found, footer absent, no footer in the
    catalog entry), the resolved end of a hit is at most the length of the
    buffer. *)
Theorem resolve_end_within_buffer (data : bytes) :
  exists hits,
    find_file_signatures data = Some hits /\
    forall i h, nth_error hits i = Some h ->
      resolve_end data hits i h <= len data.
Proof.
  destruct (find_file_signatures data) as [hits|] eqn:E;
    [|now rewrite find_file_signatures_returns in E].
  exists hits. split; [reflexivity|]. intros i h Hn.
  pose proof (returned_hit_fits _ _ _ _ E Hn) as Hfit.
  destruct (footer h) as [ft|] eqn:Hf.
  - destruct (returned_hit_footer _ _ _ _ _ E Hn Hf) as [T L].
    unfold resolve_end. rewrite T.
    destruct (Z.eq_dec (find data ft (offset h)) (-1)) as [A|A]; [lia|].
    destruct (find_present _ _ _ _ (proj1 Hfit) eq_refl A) as (_ & B & _).
    apply occurs_atb_fits in B. lia.
  - rewrite (resolve_end_no_footer data hits i h Hf).
    destruct (nth_error hits (S i)) as [next|] eqn:N; [|lia].
    apply (returned_hit_fits _ _ _ _ E N).
Qed.

Lemma resolve_end_within_buffer_witness :
  exists h0 h1,
    find_file_signatures gif_twice = Some [h0; h1] /\
    resolve_end gif_twice [h0; h1] 0 h0 <= len gif_twice /\
    resolve_end gif_twice [h0; h1] 1 h1 <= len gif_twice.
Proof.
  destruct (resolve_end_within_buffer gif_twice) as (hits & E & H).
  vm_compute in E. injection E as <-.
  eexists _, _. split; [vm_compute; reflexivity|].
  split; [exact (H 0%nat _ eq_refl) | exact (H 1%nat _ eq_refl)].
Defined.

(** ** The extraction loop *)

Section ExtractorFacts.

Variable FS : Type.
Variable read_bytes : FS -> string -> option bytes.
Variable write_bytes : FS -> string -> str -> bytes -> option FS.

(** The loop never runs out of anything; it writes the files of
    [carved_file] in order, up to the first write that fails. *)
Lemma extract_loop_writes (data : bytes) (dir : string) (sigs : list Hit)
    (todo : list (nat * Hit)) (fs : FS) (written : list (str * bytes)) :
  match extract_loop FS write_bytes data dir sigs todo fs written with
  | Returned _ w => w = written ++ map (carved_file data sigs) todo
  | Raised _ w =>
      exists k, (k < List.length todo)%nat /\
                w = written ++ map (carved_file data sigs) (firstn k todo)
  | OutOfFuel => False
  end.
Proof.
  revert fs written. induction todo as [|[i h] todo IH]; intros fs written;
    cbn [extract_loop].
  - now rewrite app_nil_r.
  - destruct (write_bytes fs dir _ _) as [fs'|].
    + specialize (IH fs' (written ++ [carved_file data sigs (i, h)])).
      unfold carved_file in IH at 1. cbn [fst snd] in IH.
      destruct (extract_loop _ _ _ _ _ _ _ _) as [fs2 w|fs2 w|].
      * rewrite IH, <- app_assoc. reflexivity.
      * destruct IH as (k & Hk & ->). exists (S k).
        split; [cbn; lia|]. now rewrite <- app_assoc.
      * exact IH.
    + exists 0%nat. split; [cbn; lia|]. now rewrite app_nil_r.
Qed.

End ExtractorFacts.

Lemma no_signatureb_sound (data : bytes) :
  no_signatureb data = true -> no_signature data.
Proof.
  unfold no_signatureb, no_signature. rewrite forallb_forall.
  intros H e o He Ho. specialize (H e He).
  apply occurs_atb_iff, in_occurrences in Ho.
  destruct (occurrences data (magic e)); [contradiction | discriminate].
Qed.

Lemma no_occurrence_no_hits (data : bytes) (cat : list SignatureEntry) :
  (forall e o, In e cat -> ~ occurs_at data (magic e) o) ->
  flat_map (entry_hits data) cat = [].
Proof.
  induction cat as [|e cat IH]; intros N; [reflexivity|].
  cbn [flat_map]. rewrite IH by (intros e' o He'; apply N; now right).
  unfold entry_hits, occurrences, occurrences_from.
  rewrite filter_none; [reflexivity|]. intros o _.
  apply not_true_is_false. intros B. apply occurs_atb_iff in B.
  exact (N e o (or_introl eq_refl) B).
Qed.

Lemma no_signature_no_hits (data : bytes) :
  no_signature data -> unsorted_hits data = [].
Proof. apply no_occurrence_no_hits. Qed.

(** C8.  When no catalog signature occurs in the buffer read from the
    image (the empty buffer is one such), [find_file_signatures] returns
    the empty list, and [extract_files_from_image] returns without a write
    and without an exception, whatever the file system would have done
    with a write. *)
Theorem no_signature_nothing_extracted (FS : Type)
    (read_bytes : FS -> string -> option bytes)
    (write_bytes : FS -> string -> str -> bytes -> option FS)
    (fs : FS) (image_path output_directory : string) (data : bytes) :
  read_bytes fs image_path = Some data ->
  no_signature data ->
  find_file_signatures data = Some [] /\
  extract_files_from_image FS read_bytes write_bytes fs image_path
                           output_directory
  = Returned fs [].
Proof.
  intros R N.
  assert (find_file_signatures data = Some []) as E.
  { rewrite find_file_signatures_returns. now rewrite no_signature_no_hits. }
  split; [exact E|]. unfold extract_files_from_image. now rewrite R, E.
Qed.

Lemma no_signature_nothing_extracted_witness :
  (no_signature [] /\ find_file_signatures [] = Some [] /\
   carve [] = Returned (mkMemFS [] []) []) /\
  (no_signature (ascii_bytes "plain text") /\
   find_file_signatures (ascii_bytes "plain text") = Some [] /\
   carve (ascii_bytes "plain text")
   = Returned (mkMemFS (ascii_bytes "plain text") []) []).
Proof.
  split.
  - assert (no_signature []) as N
        by (apply no_signatureb_sound; vm_compute; reflexivity).
    split; [exact N|].
    exact (no_signature_nothing_extracted MemFS read_mem write_mem
             (mkMemFS [] []) "image" "out" [] eq_refl N).
  - assert (no_signature (ascii_bytes "plain text")) as N
        by (apply no_signatureb_sound; vm_compute; reflexivity).
    split; [exact N|].
    exact (no_signature_nothing_extracted MemFS read_mem write_mem
             (mkMemFS (ascii_bytes "plain text") []) "image" "out"
             (ascii_bytes "plain text") eq_refl N).
Defined.

(** C1 (the code departs from it).  A JPEG header followed by seven bytes
    without [FF D9]: the scanner returns the one hit, no footer occurs in
    the buffer, and the resolved end is [1], that is [-1 + len(footer)],
    where the buffer has 10 bytes; the file written holds one byte. *)
Theorem footer_absent_end_at_jpg_without_footer :
  let h := mkHit [xff; xd8; xff] 0 (lit "jpg") (Some [xff; xd9]) in
  find_file_signatures jpg_without_footer = Some [h] /\
  occurrences jpg_without_footer [xff; xd9] = [] /\
  find jpg_without_footer [xff; xd9] 0 = -1 /\
  resolve_end jpg_without_footer [h] 0 h = 1 /\
  len jpg_without_footer = 10 /\
  carve jpg_without_footer
  = Returned (mkMemFS jpg_without_footer [(lit "extracted_file.jpg", [xff])])
             [(lit "extracted_file.jpg", [xff])].
Proof. vm_compute. repeat split; reflexivity. Qed.

(** ** The filename heuristic *)

Lemma str_eqb_iff (a b : str) : str_eqb a b = true <-> a = b.
Proof.
  revert b; induction a as [|x a IH]; intros [|y b]; cbn [str_eqb];
    try (split; [discriminate | discriminate]); [tauto|].
  rewrite andb_true_iff, IH, N.eqb_eq. split.
  - now intros [-> ->].
  - intros H. now injection H as -> ->.
Qed.

(** [split] either leaves the text whole, when it holds no separator, or
    ends with the text after the final separator. *)
Lemma split_on_shape (sep : N) (s : str) :
  match after_final sep s with
  | None => split_on sep s = [s]
  | Some t => exists first rest,
                split_on sep s = first :: rest /\ rest <> [] /\
                last rest [] = t
  end.
Proof.
  induction s as [|c s IH]; cbn [after_final split_on]; [reflexivity|].
  destruct (after_final sep s) as [t|].
  - destruct IH as (first & rest & -> & Hne & Hl).
    destruct (c =? sep)%N.
    + exists [], (first :: rest). split; [reflexivity|].
      split; [discriminate|]. destruct rest; [contradiction | exact Hl].
    + now exists (c :: first), rest.
  - rewrite IH. destruct (c =? sep)%N; [|reflexivity].
    now exists [], [s].
Qed.

Lemma contains_after_final (sep : N) (s : str) :
  contains sep s = match after_final sep s with
                   | Some _ => true
                   | None => false
                   end.
Proof.
  unfold contains. induction s as [|c s IH]; cbn [existsb after_final];
    [reflexivity|].
  rewrite IH, (N.eqb_sym sep c).
  destruct (after_final sep s); [apply orb_true_r|].
  now destruct (c =? sep)%N.
Qed.

Lemma after_final_None (sep : N) (s : str) :
  after_final sep s = None <-> ~ In sep s.
Proof.
  induction s as [|c s IH]; cbn [after_final In]; [tauto|].
  destruct (after_final sep s) as [t|].
  - split; [discriminate|]. intros H. exfalso. apply H. right.
    destruct (in_dec N.eq_dec sep s) as [I|I]; [exact I|].
    apply IH in I. discriminate.
  - destruct (N.eqb_spec c sep) as [->|Ne].
    + split; [discriminate|]. intros H. exfalso. apply H. now left.
    + split; [|reflexivity]. intros _ [E|I]; [contradiction|].
      now apply (proj1 IH).
Qed.

Lemma after_final_Some (sep : N) (s t : str) :
  after_final sep s = Some t ->
  exists stem, s = stem ++ sep :: t /\ ~ In sep t.
Proof.
  induction s as [|c s IH]; cbn [after_final]; [discriminate|].
  destruct (after_final sep s) as [t'|] eqn:A.
  - intros E. injection E as <-. destruct (IH eq_refl) as (stem & -> & Hn).
    now exists (c :: stem).
  - destruct (N.eqb_spec c sep) as [->|Ne]; [|discriminate].
    intros E. injection E as <-. exists []. split; [reflexivity|].
    now apply after_final_None.
Qed.

Lemma after_final_app (sep : N) (stem t : str) :
  ~ In sep t -> after_final sep (stem ++ sep :: t) = Some t.
Proof.
  intros Hn. induction stem as [|c stem IH]; cbn [app after_final].
  - rewrite (proj2 (after_final_None sep t) Hn). now rewrite N.eqb_refl.
  - now rewrite IH.
Qed.

(** The test of the source, [len(part) > 1 and '.' in part and
    part.split('.')[-1] == extension], is the one the specification words. *)
Lemma names_format_qualifiesb (part ext : str) :
  names_format part ext = qualifiesb part ext.
Proof.
  unfold names_format, qualifiesb. rewrite contains_after_final.
  pose proof (split_on_shape DOT part) as S.
  destruct (after_final DOT part) as [t|].
  - destruct S as (first & rest & -> & Hne & <-).
    destruct rest; [contradiction|]. now rewrite andb_true_r.
  - now rewrite andb_false_r.
Qed.

Lemma qualifiesb_iff (part ext : str) :
  qualifiesb part ext = true <-> qualifies part ext.
Proof.
  unfold qualifiesb, qualifies. rewrite andb_true_iff, Z.ltb_lt. split.
  - intros [L E]. split; [exact L|].
    destruct (after_final DOT part) as [t|] eqn:A; [|discriminate].
    apply str_eqb_iff in E. subst t. now apply after_final_Some.
  - intros [L (stem & -> & Hn)]. split; [exact L|].
    rewrite after_final_app by assumption. now apply str_eqb_iff.
Qed.

Lemma first_named_first_qualifying (parts : list str) (ext : str) :
  first_named parts ext = option_map strip (first_qualifying parts ext).
Proof.
  unfold first_qualifying.
  induction parts as [|part parts IH]; cbn [first_named List.find];
    [reflexivity|].
  rewrite names_format_qualifiesb.
  now destruct (qualifiesb part ext).
Qed.

Lemma extract_filename_first_qualifying (data : bytes) (start : Z)
    (ext : str) :
  extract_filename data start ext
  = match first_qualifying (fragments data start) ext with
    | Some part => strip part
    | None => lit "file." ++ ext
    end.
Proof.
  unfold extract_filename, fragments.
  rewrite first_named_first_qualifying.
  now destruct (first_qualifying _ ext).
Qed.

Lemma first_qualifying_found (before after : list str) (part ext : str) :
  Forall (fun q => ~ qualifies q ext) before -> qualifies part ext ->
  first_qualifying (before ++ part :: after) ext = Some part.
Proof.
  unfold first_qualifying. intros Hb Hp.
  induction Hb as [|q before Hq Hb IH]; cbn [app List.find].
  - now rewrite (proj2 (qualifiesb_iff part ext) Hp).
  - destruct (qualifiesb q ext) eqn:Q; [|exact IH].
    apply qualifiesb_iff in Q. contradiction.
Qed.

Lemma first_qualifying_none (parts : list str) (ext : str) :
  Forall (fun q => ~ qualifies q ext) parts ->
  first_qualifying parts ext = None.
Proof.
  unfold first_qualifying.
  induction 1 as [|q parts Hq Hb IH]; cbn [List.find]; [reflexivity|].
  destruct (qualifiesb q ext) eqn:Q; [|exact IH].
  apply qualifiesb_iff in Q. contradiction.
Qed.

(** C7, as the code has it.  [extract_filename] decodes the first 100
    bytes from [start] leniently, splits the text at NUL, and returns the
    first fragment longer than one character whose text after the final
    ['.'] equals the format tag, with the white space at both its ends
    stripped; when no fragment qualifies it returns ["file." ++ ext]. *)
Theorem extract_filename_stripped_fragment (data : bytes) (start : Z)
    (ext : str) :
  (forall before part after,
     fragments data start = before ++ part :: after ->
     Forall (fun q => ~ qualifies q ext) before ->
     qualifies part ext ->
     extract_filename data start ext = strip part) /\
  (Forall (fun q => ~ qualifies q ext) (fragments data start) ->
   extract_filename data start ext = lit "file." ++ ext).
Proof.
  rewrite extract_filename_first_qualifying. split.
  - intros before part after -> Hb Hp.
    now rewrite first_qualifying_found.
  - intros Hn. now rewrite first_qualifying_none.
Qed.

Lemma extract_filename_stripped_fragment_witness :
  extract_filename ([x50; x4b; x03; x04; x00] ++ ascii_bytes " a.zip") 0
                   (lit "zip")
  = lit "a.zip" /\
  extract_filename (ascii_bytes "GIF89a") 0 (lit "gif") = lit "file.gif".
Proof.
  split.
  - destruct (extract_filename_stripped_fragment
                ([x50; x4b; x03; x04; x00] ++ ascii_bytes " a.zip") 0
                (lit "zip")) as [H _].
    apply (H [[80; 75; 3; 4]%N] (lit " a.zip") []).
    + reflexivity.
    + constructor; [|constructor]. intros Q.
      apply qualifiesb_iff in Q. discriminate Q.
    + apply qualifiesb_iff. reflexivity.
  - destruct (extract_filename_stripped_fragment
                (ascii_bytes "GIF89a") 0 (lit "gif")) as [_ H].
    apply H. constructor; [|constructor]. intros Q.
    apply qualifiesb_iff in Q. discriminate Q.
Defined.

(** C7 as the specification words it fails at the slice [b" a.zip"] with
    the tag [zip]: its one fragment, [" a.zip"], qualifies, and the name
    returned is ["a.zip"], not the fragment. *)
Lemma extract_filename_not_the_fragment :
  first_qualifying (fragments (ascii_bytes " a.zip") 0) (lit "zip")
  = Some (lit " a.zip") /\
  extract_filename (ascii_bytes " a.zip") 0 (lit "zip") = lit "a.zip" /\
  extract_filename (ascii_bytes " a.zip") 0 (lit "zip") <> lit " a.zip".
Proof.
  split; [reflexivity|]. split; [reflexivity|].
  vm_compute. discriminate.
Qed.

(** ** The writer *)









Lemma stegno_main_many (zip_archive : list (list str * bytes) -> bytes)
    (image_data : bytes) (files : list HiddenFile) :
  1 < len files ->
  stegno_main zip_archive image_data files
  = match archive_entries files with
    | Some entries => Hidden (image_data ++ zip_archive entries)
    | None => Failed None
    end.
Proof.
  intros H. unfold stegno_main, create_zip_with_files.
  destruct (Z.ltb_spec 1 (len files)); [|lia].
  now destruct (archive_entries files).
Qed.




(** ** Runs of the extractor *)

Lemma extract_loop_mem (data : bytes) (dir : string) (sigs : list Hit)
    (todo : list (nat * Hit)) (fs : MemFS) (written : list (str * bytes)) :
  extract_loop MemFS write_mem data dir sigs todo fs written
  = Returned
      (mkMemFS (image fs) (outputs fs ++ map (carved_file data sigs) todo))
      (written ++ map (carved_file data sigs) todo).
Proof.
  revert fs written. induction todo as [|[i h] todo IH]; intros fs written;
    cbn [extract_loop write_mem map].
  - rewrite !app_nil_r. now destruct fs.
  - rewrite IH. cbn [image outputs]. now rewrite <- !app_assoc.
Qed.

(** On a file system that accepts every write the extractor returns, having
    written one file per hit, in the order of the hits. *)
Lemma carve_writes (data : bytes) :
  exists hits,
    find_file_signatures data = Some hits /\
    carve data
    = Returned (mkMemFS data (map (carved_file data hits) (enumerate hits)))
               (map (carved_file data hits) (enumerate hits)).
Proof.
  exists (sort_by_offset (unsorted_hits data)).
  split; [apply find_file_signatures_returns|].
  unfold carve, extract_files_from_image. cbn [read_mem image].
  rewrite find_file_signatures_returns.
  destruct (sort_by_offset (unsorted_hits data)) as [|h hits] eqn:E;
    [reflexivity|].
  now rewrite extract_loop_mem.
Qed.

(** The two-file scenario: a JPEG slice that ends right after [FF D9] and a
    PNG slice that ends right after the IEND footer, both with the default
    name. *)
Example carve_jpg_then_png :
  carve jpg_then_png
  = Returned
      (mkMemFS jpg_then_png
         [(lit "extracted_file.jpg", firstn 12 jpg_then_png);
          (lit "extracted_file.png", skipn 12 jpg_then_png)])
      [(lit "extracted_file.jpg", firstn 12 jpg_then_png);
       (lit "extracted_file.png", skipn 12 jpg_then_png)].
Proof. vm_compute. reflexivity. Qed.

(** Text of ASCII bytes decodes to itself. *)
Lemma decode_utf8_ignore_ascii (l : bytes) :
  Forall (fun b => (to_N b < 128)%N) l ->
  decode_utf8_ignore l = map to_N l.
Proof.
  induction 1 as [|b l Hb Hl IH]; cbn [decode_utf8_ignore map];
    [reflexivity|].
  destruct (N.ltb_spec (to_N b) 128) as [_|G]; [now rewrite IH | lia].
Qed.

(** A malformed sequence is left out: the euro sign, a cut euro sign, [A],
    a lone lead byte. *)
Example decode_utf8_ignore_malformed :
  decode_utf8_ignore [xe2; x82; xac; xe2; x82; x41; xc3] = [8364; 65]%N.
Proof. reflexivity. Qed.

(** The pairs the extraction loop runs over are the hits with their
    indices, so [resolve_end] is applied to each hit at its own index. *)
Lemma in_combine_seq {A : Type} (l : list A) (k i : nat) (x : A) :
  In (i, x) (combine (seq k (List.length l)) l) <->
  (k <= i)%nat /\ nth_error l (i - k) = Some x.
Proof.
  revert k; induction l as [|a l IH]; intros k; cbn [List.length seq combine].
  - split; [contradiction|]. intros [_ H]. now destruct (i - k)%nat.
  - cbn [In]. rewrite IH. split.
    + intros [E|[L N]].
      * injection E as -> ->. rewrite Nat.sub_diag. split; [lia | reflexivity].
      * split; [lia|]. replace (i - k)%nat with (S (i - S k)) by lia.
        exact N.
    + intros [L N]. destruct (Nat.eq_dec i k) as [->|Ne].
      * left. rewrite Nat.sub_diag in N. cbn in N. now injection N as ->.
      * right. split; [lia|].
        replace (i - k)%nat with (S (i - S k)) in N by lia. exact N.
Qed.

Lemma in_enumerate {A : Type} (l : list A) (i : nat) (x : A) :
  In (i, x) (enumerate l) <-> nth_error l i = Some x.
Proof.
  unfold enumerate. rewrite in_combine_seq, Nat.sub_0_r.
  split; [tauto | intros H; split; [lia | exact H]].
Qed.


(** * Further properties of the code *)

(** ** What [extract_files_from_image] writes *)

Lemma enumerate_length {A : Type} (l : list A) :
  List.length (enumerate l) = List.length l.
Proof.
  unfold enumerate. rewrite length_combine, length_seq. apply Nat.min_id.
Qed.

(** X1.  When [extract_files_from_image] returns, it has read the image and
    written one file per hit of the scanner, in the order of the hits: the
    file of [carved_file] for each. *)
Theorem extract_files_from_image_one_file_per_hit (FS : Type)
    (read_bytes : FS -> string -> option bytes)
    (write_bytes : FS -> string -> str -> bytes -> option FS)
    (fs fs' : FS) (image_path output_directory : string)
    (written : list (str * bytes)) :
  extract_files_from_image FS read_bytes write_bytes fs image_path
                           output_directory
  = Returned fs' written ->
  exists data hits,
    read_bytes fs image_path = Some data /\
    find_file_signatures data = Some hits /\
    written = map (carved_file data hits) (enumerate hits) /\
    List.length written = List.length hits.
Proof.
  unfold extract_files_from_image. intros H.
  destruct (read_bytes fs image_path) as [data|]; [|discriminate].
  exists data, (sort_by_offset (unsorted_hits data)).
  rewrite find_file_signatures_returns in *.
  split; [reflexivity|]. split; [reflexivity|].
  assert (written
          = map (carved_file data (sort_by_offset (unsorted_hits data)))
                (enumerate (sort_by_offset (unsorted_hits data)))) as W.
  { destruct (sort_by_offset (unsorted_hits data)) as [|h hits] eqn:E.
    - now injection H as _ <-.
    - pose proof (extract_loop_writes FS write_bytes data output_directory
                    (h :: hits) (enumerate (h :: hits)) fs []) as L.
      rewrite H in L. exact L. }
  split; [exact W|]. now rewrite W, length_map, enumerate_length.
Qed.

Lemma extract_files_from_image_one_file_per_hit_witness :
  exists fs' written,
    carve gif_twice = Returned fs' written /\ List.length written = 2%nat.
Proof.
  destruct (carve_writes gif_twice) as (hits & E & C).
  destruct (extract_files_from_image_one_file_per_hit MemFS read_mem
              write_mem (mkMemFS gif_twice []) _ "image"%string "out"%string _ C)
    as (data & hits' & R & E' & W & L).
  injection R as <-. vm_compute in E'. injection E' as <-.
  eexists _, _. split; [exact C|]. exact L.
Defined.

(** X2.  When a write fails, [extract_files_from_image] raises with the files
    of the hits before the failing one written and left in place; when the
    image cannot be read it raises with nothing written. *)
Theorem extract_files_from_image_raises_after_prefix (FS : Type)
    (read_bytes : FS -> string -> option bytes)
    (write_bytes : FS -> string -> str -> bytes -> option FS)
    (fs fs' : FS) (image_path output_directory : string)
    (written : list (str * bytes)) :
  extract_files_from_image FS read_bytes write_bytes fs image_path
                           output_directory
  = Raised fs' written ->
  (read_bytes fs image_path = None /\ written = []) \/
  exists data hits k,
    read_bytes fs image_path = Some data /\
    find_file_signatures data = Some hits /\
    (k < List.length hits)%nat /\
    written = map (carved_file data hits) (firstn k (enumerate hits)).
Proof.
  unfold extract_files_from_image. intros H.
  destruct (read_bytes fs image_path) as [data|];
    [|left; split; [reflexivity | now injection H as _ <-]].
  right. exists data, (sort_by_offset (unsorted_hits data)).
  rewrite find_file_signatures_returns in *.
  destruct (sort_by_offset (unsorted_hits data)) as [|h hits] eqn:E;
    [discriminate|].
  pose proof (extract_loop_writes FS write_bytes data output_directory
                (h :: hits) (enumerate (h :: hits)) fs []) as L.
  rewrite H in L. destruct L as (k & Hk & W).
  rewrite enumerate_length in Hk. now exists k.
Qed.

(** Room for one file, two hits: the first file is written, then the
    call raises. *)
Lemma extract_files_from_image_raises_after_prefix_witness :
  exists fs' name content,
    extract_files_from_image QuotaFS read_quota write_quota
      (mkQuotaFS gif_twice 1 []) "image"%string "out"%string
    = Raised fs' [(name, content)] /\
    content = firstn 8 gif_twice.
Proof.
  assert (extract_files_from_image QuotaFS read_quota write_quota
            (mkQuotaFS gif_twice 1 []) "image"%string "out"%string
          = Raised (mkQuotaFS gif_twice 0
                      [(lit "extracted_file.gif", firstn 8 gif_twice)])
                   [(lit "extracted_file.gif", firstn 8 gif_twice)]) as R
      by (vm_compute; reflexivity).
  destruct (extract_files_from_image_raises_after_prefix QuotaFS read_quota
              write_quota _ _ "image"%string "out"%string _ R)
    as [[N _] | (data & hits & k & _ & _ & _ & _)].
  - discriminate N.
  - eexists _, _, _. split; [exact R | reflexivity].
Defined.

(** ** The bytes of a carved file *)

Lemma slice_within {A : Type} (data : list A) (lo hi : Z) :
  0 <= lo <= len data -> 0 <= hi <= len data ->
  slice data lo hi
  = firstn (Z.to_nat (hi - lo)) (skipn (Z.to_nat lo) data).
Proof.
  intros Hlo Hhi. unfold slice.
  rewrite !adjust_index_nonneg by lia.
  now rewrite !Z.min_l by lia.
Qed.

(** A slice that covers an occurrence from its start begins with it. *)
Lemma slice_starts_with (data sub : bytes) (o hi : Z) :
  occurs_at data sub o -> o + len sub <= hi <= len data ->
  exists rest, slice data o hi = sub ++ rest.
Proof.
  intros [H0 (pre & post & -> & E)] Hhi. unfold len in *.
  rewrite slice_within by (unfold len; rewrite ?length_app in *; lia).
  replace (Z.to_nat o) with (List.length pre) by lia.
  rewrite skipn_app, skipn_all, Nat.sub_diag. cbn [skipn app].
  exists (firstn (Z.to_nat (hi - o) - List.length sub) post).
  rewrite firstn_app, firstn_all2 by lia. reflexivity.
Qed.

(** A slice that stops where an occurrence stops ends with it. *)
Lemma slice_ends_with (data sub : bytes) (o f : Z) :
  occurs_at data sub f -> 0 <= o <= f ->
  exists body, slice data o (f + len sub) = body ++ sub.
Proof.
  intros [H0 (pre & post & -> & E)] Ho. unfold len in *. subst f.
  rewrite slice_within by (unfold len; rewrite ?length_app in *; lia).
  rewrite skipn_app. replace (Z.to_nat o - List.length pre)%nat with 0%nat
    by lia.
  cbn [skipn]. exists (skipn (Z.to_nat o) pre).
  rewrite firstn_app, length_skipn.
  rewrite firstn_all2 by (rewrite length_skipn; lia).
  replace (Z.to_nat (Z.of_nat (List.length pre) + Z.of_nat (List.length sub) - o)
           - (List.length pre - Z.to_nat o))%nat
    with (List.length sub + 0)%nat by lia.
  now rewrite firstn_app_2, app_nil_r.
Qed.

(** In the catalog, a footer found at or after its header ends no earlier
    than the header does: the two differ within the footer's length. *)
Lemma catalog_footer_after_header (e : SignatureEntry) (ft data : bytes)
    (o f : Z) :
  In e FILE_SIGNATURES -> entry_footer e = Some ft ->
  occurs_atb data (magic e) o = true -> occurs_atb data ft f = true ->
  o <= f -> o + len (magic e) <= f + len ft.
Proof.
  intros H E Hm Hf Hle. each_entry H; cbn in E; try discriminate;
    injection E as <-; unfold len; cbn [magic List.length]; try lia.
  all: destruct (Z.eq_dec f o) as [->|Ne]; [exfalso | lia].
  all: unfold occurs_atb in Hm, Hf;
       apply andb_prop in Hm; destruct Hm as [_ Hm];
       apply andb_prop in Hf; destruct Hf as [_ Hf];
       apply starts_with_iff in Hm; destruct Hm as [post Hm];
       cbn [magic] in Hm; rewrite Hm in Hf; cbn in Hf; discriminate Hf.
Qed.

(** X3.  For a hit whose footer is found, the carved file starts with the
    header signature and ends with the footer. *)
Theorem carved_file_header_to_footer (data : bytes) :
  exists hits,
    find_file_signatures data = Some hits /\
    forall i h ft,
      nth_error hits i = Some h -> footer h = Some ft ->
      find data ft (offset h) <> -1 ->
      (exists rest, snd (carved_file data hits (i, h)) = signature h ++ rest)
      /\
      (exists body, snd (carved_file data hits (i, h)) = body ++ ft).
Proof.
  destruct (find_file_signatures data) as [hits|] eqn:E;
    [|now rewrite find_file_signatures_returns in E].
  exists hits. split; [reflexivity|]. intros i h ft Hn Hf Hfound.
  destruct (returned_hit_footer _ _ _ _ _ E Hn Hf) as [T _].
  pose proof (returned_hit_fits _ _ _ _ E Hn) as Hfit.
  destruct (returned_hit _ _ _ _ E Hn) as (e & He & Eh & Ho).
  destruct (find_present _ _ _ _ (proj1 Hfit) eq_refl Hfound) as (A & B & _).
  unfold carved_file. cbn [fst snd]. unfold resolve_end. rewrite T.
  assert (entry_footer e = Some ft) as Ef
      by (rewrite Eh in Hf; exact Hf).
  pose proof (catalog_footer_after_header e ft data _ _ He Ef Ho B A) as L.
  pose proof (occurs_atb_fits _ _ _ B) as Fit.
  split.
  - replace (signature h) with (magic e) by (now rewrite Eh).
    apply slice_starts_with; [now apply occurs_atb_iff | lia].
  - apply slice_ends_with; [now apply occurs_atb_iff | lia].
Qed.

Lemma carved_file_header_to_footer_witness :
  exists h rest body,
    find_file_signatures jpg_small = Some [h] /\
    snd (carved_file jpg_small [h] (0%nat, h)) = [xff; xd8; xff] ++ rest /\
    snd (carved_file jpg_small [h] (0%nat, h)) = body ++ [xff; xd9].
Proof.
  destruct (carved_file_header_to_footer jpg_small) as (hits & E & H).
  vm_compute in E. injection E as <-.
  destruct (H 0%nat _ [xff; xd9] eq_refl eq_refl)
    as [[rest R] [body B]].
  - vm_compute. discriminate.
  - eexists _, rest, body. split; [vm_compute; reflexivity|].
    split; [exact R | exact B].
Defined.

(** X4.  For a hit whose footer occurs nowhere from the hit's offset on, the
    end computed is [len(footer) - 1], counted from the start of the
    buffer; the file written is the slice from the offset to there, which
    is empty as soon as the offset is [len(footer) - 1] or more. *)
Theorem carved_file_footer_absent (data : bytes) :
  exists hits,
    find_file_signatures data = Some hits /\
    forall i h ft,
      nth_error hits i = Some h -> footer h = Some ft ->
      (forall j, offset h <= j -> ~ occurs_at data ft j) ->
      resolve_end data hits i h = len ft - 1 /\
      snd (carved_file data hits (i, h))
      = firstn (Z.to_nat (len ft - 1 - offset h))
               (skipn (Z.to_nat (offset h)) data) /\
      (len ft - 1 <= offset h -> snd (carved_file data hits (i, h)) = []).
Proof.
  destruct (find_file_signatures data) as [hits|] eqn:E;
    [|now rewrite find_file_signatures_returns in E].
  exists hits. split; [reflexivity|]. intros i h ft Hn Hf Hno.
  destruct (returned_hit_footer _ _ _ _ _ E Hn Hf) as [T L].
  pose proof (returned_hit_fits _ _ _ _ E Hn) as Hfit.
  assert (resolve_end data hits i h = len ft - 1) as R.
  { apply resolve_end_footer_absent; [exact T | lia |].
    intros j Hj. apply not_true_is_false. intros B.
    apply occurs_atb_iff in B. exact (Hno j Hj B). }
  assert (0 <= len ft - 1) as P.
  { pose proof T as T'. rewrite Hf in T'.
    destruct ft; [discriminate T'|]. unfold len. cbn [List.length]. lia. }
  split; [exact R|]. unfold carved_file. cbn [fst snd]. rewrite R.
  rewrite slice_within by lia. split; [reflexivity|].
  intros Hle. now replace (Z.to_nat (len ft - 1 - offset h)) with 0%nat by lia.
Qed.

(** A JPEG header at offset 2 without footer: the end is 1 and the file
    is empty. *)
Lemma carved_file_footer_absent_witness :
  exists h,
    find_file_signatures ([x00; x00] ++ jpg_without_footer) = Some [h] /\
    offset h = 2 /\
    resolve_end ([x00; x00] ++ jpg_without_footer) [h] 0 h = 1 /\
    snd (carved_file ([x00; x00] ++ jpg_without_footer) [h] (0%nat, h)) = [].
Proof.
  destruct (carved_file_footer_absent ([x00; x00] ++ jpg_without_footer))
    as (hits & E & H).
  vm_compute in E. injection E as <-.
  destruct (H 0%nat _ [xff; xd9] eq_refl eq_refl) as (R & _ & Z0).
  - intros j _ B. apply occurs_atb_iff, in_occurrences in B.
    vm_compute in B. exact B.
  - eexists. split; [vm_compute; reflexivity|]. split; [reflexivity|].
    split; [exact R|]. apply Z0. vm_compute. discriminate.
Defined.

Lemma sorted_neighbours {A : Type} (R : A -> A -> Prop) (l : list A)
    (i : nat) (x y : A) :
  StronglySorted R l -> nth_error l i = Some x ->
  nth_error l (S i) = Some y -> R x y.
Proof.
  intros Hs. revert i. induction Hs as [|a l Hs IH F]; intros i Hx Hy.
  - now destruct i.
  - destruct i as [|i].
    + injection Hx as <-. change (nth_error l 0 = Some y) in Hy.
      rewrite Forall_forall in F. apply F. eapply nth_error_In, Hy.
    + exact (IH i Hx Hy).
Qed.

(** X5.  For a hit without footer followed by another hit, the file written is
    the bytes from the hit's offset up to the next hit's offset, so its
    length is the distance between the two; for the last hit it is the
    rest of the buffer. *)
Theorem carved_file_without_footer (data : bytes) :
  exists hits,
    find_file_signatures data = Some hits /\
    forall i h,
      nth_error hits i = Some h -> footer h = None ->
      match nth_error hits (S i) with
      | Some next =>
          offset h <= offset next /\
          snd (carved_file data hits (i, h))
          = firstn (Z.to_nat (offset next - offset h))
                   (skipn (Z.to_nat (offset h)) data) /\
          len (snd (carved_file data hits (i, h))) = offset next - offset h
      | None =>
          snd (carved_file data hits (i, h))
          = skipn (Z.to_nat (offset h)) data
      end.
Proof.
  exists (sort_by_offset (unsorted_hits data)).
  pose proof (find_file_signatures_returns data) as E.
  split; [exact E|]. intros i h Hn Hf.
  pose proof (returned_hit_fits _ _ _ _ E Hn) as Hfit.
  unfold carved_file. cbn [fst snd].
  rewrite (resolve_end_no_footer data _ i h Hf).
  destruct (nth_error (sort_by_offset (unsorted_hits data)) (S i))
    as [next|] eqn:N.
  - pose proof (returned_hit_fits _ _ _ _ E N) as Nfit.
    pose proof (sorted_neighbours offset_le _ i h next
                  (sort_by_offset_sorted _) Hn N) as Le.
    unfold offset_le in Le. split; [exact Le|].
    rewrite slice_within by lia. split; [reflexivity|].
    unfold len in *. rewrite length_firstn, length_skipn. lia.
  - rewrite slice_within by lia. apply firstn_all2.
    rewrite length_skipn. unfold len. lia.
Qed.

Lemma carved_file_without_footer_witness :
  exists h0 h1,
    find_file_signatures gif_twice = Some [h0; h1] /\
    len (snd (carved_file gif_twice [h0; h1] (0%nat, h0))) = 8 - 0 /\
    snd (carved_file gif_twice [h0; h1] (1%nat, h1)) = skipn 8 gif_twice.
Proof.
  destruct (carved_file_without_footer gif_twice) as (hits & E & H).
  vm_compute in E. injection E as <-.
  eexists _, _. split; [vm_compute; reflexivity|]. split.
  - exact (proj2 (proj2 (H 0%nat _ eq_refl eq_refl))).
  - exact (H 1%nat _ eq_refl eq_refl).
Defined.

(** ** The names [extract_filename] returns *)

Lemma lstrip_keeps_extension (stem ext : str) :
  exists stem', lstrip (stem ++ DOT :: ext) = stem' ++ DOT :: ext.
Proof.
  induction stem as [|c stem IH]; cbn [app lstrip].
  - now exists [].
  - destruct (is_space c); [exact IH | now exists (c :: stem)].
Qed.

Lemma lstrip_no_space (c : N) (s : str) :
  is_space c = false -> lstrip (c :: s) = c :: s.
Proof. intros H. cbn [lstrip]. now rewrite H. Qed.

Lemma strip_keeps_extension (stem ext : str) :
  is_space (last ext DOT) = false ->
  exists stem', strip (stem ++ DOT :: ext) = stem' ++ DOT :: ext.
Proof.
  intros Hl. unfold strip.
  destruct (lstrip_keeps_extension stem ext) as [stem' ->].
  exists stem'. rewrite rev_app_distr. cbn [rev]. rewrite <- app_assoc.
  cbn [app].
  replace (lstrip (rev ext ++ DOT :: rev stem'))
    with (rev ext ++ DOT :: rev stem').
  - rewrite rev_app_distr. cbn [rev]. rewrite !rev_involutive.
    now rewrite <- app_assoc.
  - symmetry. destruct (rev ext) as [|c r] eqn:R.
    + now apply lstrip_no_space.
    + cbn [app]. apply lstrip_no_space.
      assert (ext = rev r ++ [c]) as ->
          by (rewrite <- (rev_involutive ext), R; reflexivity).
      now rewrite last_last in Hl.
Qed.

Lemma first_qualifying_qualifies (parts : list str) (ext part : str) :
  first_qualifying parts ext = Some part ->
  In part parts /\ qualifies part ext.
Proof.
  unfold first_qualifying. intros H. apply find_some in H.
  destruct H as [I Q]. split; [exact I | now apply qualifiesb_iff].
Qed.

(** X6.  Whatever the bytes, the name returned ends with ['.'] and the format
    tag, provided the tag does not end with white space (no tag of the
    catalog does): the file written carries the extension of its format. *)
Theorem extract_filename_has_extension (data : bytes) (start : Z)
    (ext : str) :
  is_space (last ext DOT) = false ->
  exists stem, extract_filename data start ext = stem ++ DOT :: ext.
Proof.
  intros Hl. rewrite extract_filename_first_qualifying.
  destruct (first_qualifying (fragments data start) ext) as [part|] eqn:F.
  - apply first_qualifying_qualifies in F.
    destruct F as [_ [_ (stem & -> & _)]].
    now apply strip_keeps_extension.
  - now exists (lit "file").
Qed.

Lemma extract_filename_has_extension_witness :
  exists stem,
    extract_filename ([x50; x4b; x03; x04; x00] ++ ascii_bytes " a.zip") 0
                     (lit "zip")
    = stem ++ DOT :: lit "zip".
Proof.
  apply (extract_filename_has_extension
           ([x50; x4b; x03; x04; x00] ++ ascii_bytes " a.zip") 0 (lit "zip")).
  reflexivity.
Defined.

Lemma split_on_no_sep (sep : N) (s part : str) :
  In part (split_on sep s) -> ~ In sep part.
Proof.
  revert part; induction s as [|c s IH]; intros part; cbn [split_on].
  - intros [<-|[]]. exact (fun H => H).
  - destruct (N.eqb_spec c sep) as [->|Ne].
    + intros [<-|H]; [exact (fun H => H) | now apply IH].
    + destruct (split_on sep s) as [|p ps].
      * intros [<-|[]]. intros [E|[]]. now apply Ne.
      * intros [<-|H].
        -- intros [E|I]; [now apply Ne|]. apply (IH p); [now left | exact I].
        -- apply IH. now right.
Qed.

Lemma lstrip_incl (s : str) (c : N) : In c (lstrip s) -> In c s.
Proof.
  induction s as [|a s IH]; cbn [lstrip]; [exact (fun H => H)|].
  destruct (is_space a); [|exact (fun H => H)].
  intros H. right. now apply IH.
Qed.

Lemma strip_incl (s : str) (c : N) : In c (strip s) -> In c s.
Proof.
  unfold strip. intros H. apply in_rev, lstrip_incl, in_rev in H.
  now apply lstrip_incl.
Qed.

(** X7.  The name returned holds no NUL character when the format tag holds
    none, whatever bytes follow the header. *)
Theorem extract_filename_no_nul (data : bytes) (start : Z) (ext : str) :
  ~ In NUL ext -> ~ In NUL (extract_filename data start ext).
Proof.
  intros He. rewrite extract_filename_first_qualifying.
  destruct (first_qualifying (fragments data start) ext) as [part|] eqn:F.
  - apply first_qualifying_qualifies in F. destruct F as [I _].
    intros H. apply strip_incl in H. exact (split_on_no_sep NUL _ _ I H).
  - intros H. apply in_app_or in H. destruct H as [H|H]; [|now apply He].
    vm_compute in H. intuition discriminate.
Qed.

Lemma extract_filename_no_nul_witness :
  ~ In NUL (lit "zip") /\
  ~ In NUL (extract_filename
              ([x50; x4b; x03; x04; x00] ++ ascii_bytes " a.zip" ++ [x00]) 0
              (lit "zip")).
Proof.
  assert (~ In NUL (lit "zip")) as H by (vm_compute; intuition discriminate).
  split; [exact H|]. now apply extract_filename_no_nul.
Defined.

(** ** [main] of extract_hidden_files.py *)

Section ExtractorMainFacts.

Variable FS : Type.
Variable read_bytes : FS -> string -> option bytes.
Variable write_bytes : FS -> string -> str -> bytes -> option FS.
Variable path_exists : FS -> string -> bool.
Variable path_is_file : FS -> string -> bool.
Variable mkdir : FS -> string -> option FS.

Lemma try_extract_not_hung (fs : FS) (image_path output_directory : string) :
  try_extract FS read_bytes write_bytes fs image_path output_directory
  <> Hung.
Proof.
  unfold try_extract, extract_files_from_image.
  destruct (read_bytes fs image_path) as [data|]; [|discriminate].
  rewrite find_file_signatures_returns.
  destruct (sort_by_offset (unsorted_hits data)) as [|h hits];
    [discriminate|].
  pose proof (extract_loop_writes FS write_bytes data output_directory
                (h :: hits) (enumerate (h :: hits)) fs []) as L.
  destruct (extract_loop _ _ _ _ _ _ _ _); [discriminate.. | contradiction].
Qed.

Lemma try_extract_exit (fs fs' : FS) (image_path output_directory : string)
    (code : Z) (written : list (str * bytes)) :
  try_extract FS read_bytes write_bytes fs image_path output_directory
  = Exit code fs' written -> code = 1.
Proof.
  unfold try_extract.
  destruct (extract_files_from_image _ _ _ _ _ _); try discriminate.
  intros H. now injection H as <- _ _.
Qed.

End ExtractorMainFacts.

(** X8.  [main] always ends, and when it ends through [sys.exit] the status is
    1: the scan cannot run on for ever, and every failure of the
    extraction is turned into status 1. *)
Theorem extract_main_ends (FS : Type)
    (read_bytes : FS -> string -> option bytes)
    (write_bytes : FS -> string -> str -> bytes -> option FS)
    (path_exists path_is_file : FS -> string -> bool)
    (mkdir : FS -> string -> option FS)
    (argv : list string) (cwd : string) (fs : FS) :
  extract_main FS read_bytes write_bytes path_exists path_is_file mkdir
               argv cwd fs <> Hung /\
  forall code fs' written,
    extract_main FS read_bytes write_bytes path_exists path_is_file mkdir
                 argv cwd fs = Exit code fs' written ->
    code = 1.
Proof.
  unfold extract_main.
  destruct (len argv <? 2);
    [split; [discriminate | intros ? ? ? H; now injection H as <- _ _]|].
  destruct (negb (path_exists fs (nth 1 argv ""%string))
            || negb (path_is_file fs (nth 1 argv ""%string)));
    [split; [discriminate | intros ? ? ? H; now injection H as <- _ _]|].
  destruct (negb (path_exists fs _)).
  - destruct (mkdir fs _) as [fs1|]; [|split; discriminate].
    split; [apply try_extract_not_hung|].
    intros code fs' written. apply try_extract_exit.
  - split; [apply try_extract_not_hung|].
    intros code fs' written. apply try_extract_exit.
Qed.

(** X9.  With an image that exists, is a regular file and holds no catalog
    signature, and an output directory that exists, [main] returns
    normally (status 0) and has written no file, whatever else the file
    system would have done. *)
Theorem extract_main_no_signature (FS : Type)
    (read_bytes : FS -> string -> option bytes)
    (write_bytes : FS -> string -> str -> bytes -> option FS)
    (path_exists path_is_file : FS -> string -> bool)
    (mkdir : FS -> string -> option FS)
    (prog image_path output_directory cwd : string) (fs : FS)
    (data : bytes) :
  path_exists fs image_path = true ->
  path_is_file fs image_path = true ->
  path_exists fs output_directory = true ->
  read_bytes fs image_path = Some data ->
  no_signature data ->
  extract_main FS read_bytes write_bytes path_exists path_is_file mkdir
               [prog; image_path; output_directory] cwd fs
  = Finished fs [].
Proof.
  intros Hex Hfile Hout Hread Hno. unfold extract_main.
  change (len [prog; image_path; output_directory] <? 2) with false.
  change (2 <? len [prog; image_path; output_directory]) with true.
  cbn [nth]. rewrite Hex, Hfile, Hout. cbn [negb orb].
  unfold try_extract, extract_files_from_image.
  now rewrite Hread, find_file_signatures_returns, no_signature_no_hits.
Qed.

Lemma extract_main_no_signature_witness :
  no_signature (ascii_bytes "plain text") /\
  extract_main MemFS read_mem write_mem (fun _ _ => true) (fun _ _ => true)
               (fun fs _ => Some fs)
               ["extract_hidden_files.py"; "image.png"; "out"]%string
               "."%string (mkMemFS (ascii_bytes "plain text") [])
  = Finished (mkMemFS (ascii_bytes "plain text") []) [].
Proof.
  assert (no_signature (ascii_bytes "plain text")) as N
      by (apply no_signatureb_sound; vm_compute; reflexivity).
  split; [exact N|].
  exact (extract_main_no_signature MemFS read_mem write_mem
           (fun _ _ => true) (fun _ _ => true) (fun fs _ => Some fs)
           "extract_hidden_files.py" "image.png" "out" "."
           (mkMemFS (ascii_bytes "plain text") []) (ascii_bytes "plain text")
           eq_refl eq_refl eq_refl eq_refl N).
Defined.

(** ** stegno.py: sizes for the log *)

Lemma size_loop_spec (k : nat) (units : list str) (size : Z) :
  (k <= List.length units)%nat ->
  (k = 0%nat \/ 1024 ^ Z.of_nat k <= size) ->
  (k = List.length units \/ size < 1024 ^ (Z.of_nat k + 1)) ->
  size_loop units size
  = str_of_int (size / 1024 ^ Z.of_nat k) ++ lit " "
      ++ nth k (units ++ [lit "EiB"]) [].
Proof.
  revert units size. induction k as [|k IH]; intros units size Hk Hlo Hhi.
  - change (1024 ^ Z.of_nat 0) with 1. rewrite Z.div_1_r.
    destruct units as [|unit units]; cbn [size_loop nth app].
    + reflexivity.
    + destruct Hhi as [Hhi|Hhi]; [discriminate|].
      change (1024 ^ (Z.of_nat 0 + 1)) with 1024 in Hhi.
      destruct (Z.ltb_spec size 1024); [reflexivity | lia].
  - destruct units as [|unit units]; [cbn in Hk; lia|].
    destruct Hlo as [Hlo|Hlo]; [discriminate|].
    rewrite Nat2Z.inj_succ, Z.pow_succ_r in Hlo by lia.
    assert (0 < 1024 ^ Z.of_nat k) as Pk by (apply Z.pow_pos_nonneg; lia).
    cbn [size_loop]. destruct (Z.ltb_spec size 1024) as [L|L]; [nia|].
    rewrite (IH units (size / 1024)).
    + rewrite Z.div_div by lia.
      rewrite Nat2Z.inj_succ, Z.pow_succ_r by lia. reflexivity.
    + cbn in Hk. lia.
    + right. apply Z.div_le_lower_bound; lia.
    + destruct Hhi as [Hhi|Hhi]; [left; cbn in Hhi; lia|]. right.
      apply Z.div_lt_upper_bound; [lia|].
      rewrite Nat2Z.inj_succ in Hhi.
      replace (Z.succ (Z.of_nat k) + 1) with (Z.succ (Z.of_nat k + 1))
        in Hhi by lia.
      rewrite Z.pow_succ_r in Hhi by lia. exact Hhi.
Qed.

(** X10.  [human_readable_size] prints the size divided by [1024^k], rounded
    down, with the [k]-th unit, where [k] is the largest exponent with
    [1024^k <= size], and at most 6 (EiB); a size below 1024 is printed as
    it is, in B. *)
Theorem human_readable_size_unit (size : Z) (k : nat) :
  (k <= 6)%nat ->
  (k = 0%nat \/ 1024 ^ Z.of_nat k <= size) ->
  (k = 6%nat \/ size < 1024 ^ (Z.of_nat k + 1)) ->
  human_readable_size size
  = str_of_int (size / 1024 ^ Z.of_nat k) ++ lit " "
      ++ nth k (UNITS ++ [lit "EiB"]) [].
Proof.
  intros Hk Hlo Hhi. unfold human_readable_size.
  now apply size_loop_spec.
Qed.

Lemma human_readable_size_unit_witness :
  human_readable_size 1023 = lit "1023 B" /\
  human_readable_size 1536 = lit "1 KiB" /\
  human_readable_size (5 * 1024 ^ 3 + 7) = lit "5 GiB" /\
  human_readable_size (3000 * 1024 ^ 6) = lit "3000 EiB".
Proof.
  split; [|split; [|split]].
  - apply (human_readable_size_unit 1023 0); [lia | now left | right; lia].
  - apply (human_readable_size_unit 1536 1); [lia | right; lia | right; lia].
  - apply (human_readable_size_unit (5 * 1024 ^ 3 + 7) 3);
      [lia | right; vm_compute; discriminate | right; vm_compute; reflexivity].
  - apply (human_readable_size_unit (3000 * 1024 ^ 6) 6);
      [lia | right; vm_compute; discriminate | now left].
Defined.

(** ** stegno.py: the output image *)




(** X12.  When more than one file is hidden, all under the directory of
    the first, and the archive built from them starts with the ZIP
    local-header magic, [main] returns, and the scanner run on the output
    image reports a zip hit exactly where the carrier ends. *)
Theorem stegno_main_zip_is_found
    (zip_archive : list (list str * bytes) -> bytes)
    (image_data : bytes) (files_to_hide : list HiddenFile)
    (entries : list (list str * bytes)) (rest : bytes) :
  1 < len files_to_hide ->
  archive_entries files_to_hide = Some entries ->
  zip_archive entries = magic zip_entry ++ rest ->
  exists out hits,
    stegno_main zip_archive image_data files_to_hide = Hidden out /\
    find_file_signatures out = Some hits /\
    In (hit_of zip_entry (len image_data)) hits.
Proof.
  intros Hn Ha Hz. eexists _, _.
  split; [rewrite stegno_main_many, Ha by exact Hn; reflexivity|].
  split; [apply find_file_signatures_returns|].
  apply in_sorted_hits, in_unsorted_hits. exists zip_entry.
  split; [now left|]. split; [reflexivity|].
  apply occurs_atb_iff. cbn [hit_of offset]. split; [unfold len; lia|].
  exists image_data, rest. split; [now rewrite Hz | reflexivity].
Qed.

Lemma stegno_main_zip_is_found_witness :
  exists out hits,
    stegno_main (fun _ => [x50; x4b; x03; x04] ++ ascii_bytes "zz")
      (ascii_bytes "IMG")
      [mkHidden (rel_path ["a"]%string) [];
       mkHidden (rel_path ["b"]%string) []]
    = Hidden out /\
    find_file_signatures out = Some hits /\
    In (hit_of zip_entry 3) hits.
Proof.
  apply (stegno_main_zip_is_found
           (fun _ => [x50; x4b; x03; x04] ++ ascii_bytes "zz")
           (ascii_bytes "IMG")
           [mkHidden (rel_path ["a"]%string) [];
            mkHidden (rel_path ["b"]%string) []]
           [([lit "a"], []); ([lit "b"], [])]
           (ascii_bytes "zz")).
  - reflexivity.
  - reflexivity.
  - reflexivity.
Defined.

(** ** stegno.py: validation of the inputs *)

Lemma regular_test (path_exists path_is_file : string -> bool) (p : string) :
  negb (path_exists p) || negb (path_is_file p) = false
  <-> regular path_exists path_is_file p.
Proof.
  unfold regular. destruct (path_exists p), (path_is_file p); cbn;
    intuition discriminate.
Qed.

Lemma validate_files_spec (path_exists path_is_file : string -> bool)
    (files : list string) :
  match validate_files path_exists path_is_file files with
  | None => Forall (regular path_exists path_is_file) files
  | Some p =>
      exists before after,
        files = before ++ p :: after /\
        Forall (regular path_exists path_is_file) before /\
        ~ regular path_exists path_is_file p
  end.
Proof.
  induction files as [|f files IH]; cbn [validate_files]; [constructor|].
  destruct (negb (path_exists f) || negb (path_is_file f)) eqn:T.
  - exists [], files. split; [reflexivity|]. split; [constructor|].
    intros R. apply regular_test in R. congruence.
  - apply regular_test in T.
    destruct (validate_files path_exists path_is_file files) as [p|].
    + destruct IH as (before & after & -> & B & N).
      exists (f :: before), after. split; [reflexivity|].
      split; [now constructor | exact N].
    + now constructor.
Qed.

(** X13.  [validate_inputs] returns exactly when the image and every file to
    hide exist and are regular files; otherwise it raises for the first
    path that is not, the image being looked at first and the files in
    the order given. *)
Theorem validate_inputs_first_missing
    (path_exists path_is_file : string -> bool)
    (image_path : string) (files_to_hide : list string) :
  match validate_inputs path_exists path_is_file image_path files_to_hide
  with
  | None =>
      regular path_exists path_is_file image_path /\
      Forall (regular path_exists path_is_file) files_to_hide
  | Some p =>
      ~ regular path_exists path_is_file p /\
      (p = image_path \/
       regular path_exists path_is_file image_path /\
       exists before after,
         files_to_hide = before ++ p :: after /\
         Forall (regular path_exists path_is_file) before)
  end.
Proof.
  unfold validate_inputs.
  destruct (negb (path_exists image_path) || negb (path_is_file image_path))
    eqn:T.
  - split; [|now left]. intros R. apply regular_test in R. congruence.
  - apply regular_test in T.
    pose proof (validate_files_spec path_exists path_is_file files_to_hide)
      as V.
    destruct (validate_files path_exists path_is_file files_to_hide) as [p|].
    + destruct V as (before & after & E & B & N). split; [exact N|].
      right. split; [exact T|]. now exists before, after.
    + now split.
Qed.

(** ** demo-email-pass-generator.py *)

Section GeneratorFacts.

Variable rng : Type.
Variable choice : rng -> nat -> nat * rng.

(** [random.choices] draws inside the population. *)
Hypothesis choice_in_range :
  forall r n, (0 < n)%nat -> (fst (choice r n) < n)%nat.

Lemma choices_spec (k : nat) (r : rng) (population : str) :
  population <> [] ->
  List.length (fst (choices rng choice r population k)) = k /\
  Forall (fun c => In c population) (fst (choices rng choice r population k)).
Proof.
  intros Hp. revert r. induction k as [|k IH]; intros r; cbn [choices].
  - split; [reflexivity | constructor].
  - pose proof (choice_in_range r (List.length population)) as Hi.
    destruct (choice r (List.length population)) as [i r1]. cbn [fst] in Hi.
    specialize (IH r1).
    destruct (choices rng choice r1 population k) as [rest r2].
    cbn [fst] in *. destruct IH as [L F]. split; [cbn; lia|].
    constructor; [|exact F]. apply nth_In. apply Hi.
    destruct population; [contradiction | cbn; lia].
Qed.

Lemma generate_random_string_spec (r : rng) (n : nat) :
  List.length (fst (generate_random_string rng choice r n)) = n /\
  Forall (fun c => In c ALPHABET)
         (fst (generate_random_string rng choice r n)).
Proof. apply choices_spec. discriminate. Qed.

Lemma pairs_spec (n : nat) (r : rng) :
  List.length (fst (generate_email_password_pairs rng choice r n)) = n /\
  Forall well_formed_pair
         (fst (generate_email_password_pairs rng choice r n)).
Proof.
  revert r. induction n as [|n IH]; intros r;
    cbn [generate_email_password_pairs].
  - split; [reflexivity | constructor].
  - unfold generate_email, generate_password.
    pose proof (generate_random_string_spec r 5) as [Lu Fu].
    destruct (generate_random_string rng choice r 5) as [user r1].
    pose proof (generate_random_string_spec r1 10) as [Lp Fp].
    destruct (generate_random_string rng choice r1 10) as [password r2].
    specialize (IH r2).
    destruct (generate_email_password_pairs rng choice r2 n) as [rest r3].
    cbn [fst] in *. destruct IH as [L F]. split; [cbn; lia|].
    constructor; [|exact F]. exists user, password.
    split; [now rewrite <- !app_assoc|]. now repeat split.
Qed.

End GeneratorFacts.

Lemma well_formed_pair_length (line : str) :
  well_formed_pair line -> List.length line = 33%nat.
Proof.
  intros (user & password & -> & Lu & Lp & _).
  rewrite !length_app. cbn [List.length]. rewrite Lu, Lp. reflexivity.
Qed.

Lemma well_formed_pair_one_line (line : str) :
  well_formed_pair line -> ~ In NEWLINE line.
Proof.
  intros (user & password & -> & _ & _ & Fu & Fp) H.
  assert (~ In NEWLINE ALPHABET) as NA by (vm_compute; intuition discriminate).
  rewrite Forall_forall in Fu, Fp.
  apply in_app_or in H. destruct H as [H|H];
    [vm_compute in H; intuition discriminate|].
  apply in_app_or in H. destruct H as [H|H]; [exact (NA (Fu _ H))|].
  apply in_app_or in H. destruct H as [H|H];
    [vm_compute in H; intuition discriminate|].
  destruct H as [H|H]; [discriminate H | exact (NA (Fp _ H))].
Qed.

Lemma split_on_whole (sep : N) (s : str) :
  ~ In sep s -> split_on sep s = [s].
Proof.
  intros H. apply after_final_None in H.
  pose proof (split_on_shape sep s) as S. now rewrite H in S.
Qed.

Lemma split_on_app (sep : N) (a b : str) :
  ~ In sep a -> split_on sep (a ++ sep :: b) = a :: split_on sep b.
Proof.
  induction a as [|c a IH]; intros H; cbn [app split_on].
  - now rewrite N.eqb_refl.
  - destruct (N.eqb_spec c sep) as [->|Ne]; [exfalso; apply H; now left|].
    rewrite IH; [reflexivity|]. intros I. apply H. now right.
Qed.

(** Lines without a line feed, joined, split back into themselves. *)
Lemma split_join_lines (lines : list str) :
  lines <> [] -> Forall (fun line => ~ In NEWLINE line) lines ->
  split_on NEWLINE (join_lines lines) = lines.
Proof.
  intros Hne F. induction F as [|line lines Hl F IH]; [contradiction|].
  destruct lines as [|line2 lines].
  - cbn [join_lines]. now apply split_on_whole.
  - change (join_lines (line :: line2 :: lines))
      with (line ++ NEWLINE :: join_lines (line2 :: lines)).
    rewrite split_on_app by assumption. f_equal. apply IH. discriminate.
Qed.

Lemma join_lines_length (lines : list str) (m : nat) :
  lines <> [] -> Forall (fun line => List.length line = m) lines ->
  (List.length (join_lines lines) + 1 = List.length lines * (m + 1))%nat.
Proof.
  intros Hne F. induction F as [|line lines Hl F IH]; [contradiction|].
  destruct lines as [|line2 lines].
  - cbn [join_lines List.length]. lia.
  - change (join_lines (line :: line2 :: lines))
      with (line ++ NEWLINE :: join_lines (line2 :: lines)).
    rewrite length_app. cbn [List.length] in *.
    specialize (IH ltac:(discriminate)). lia.
Qed.

(** X14.  Whatever the random source draws (inside the population), every
    generated pair has the form [demo-<5 characters>@unsigned.sh:<10
    characters>] with the characters lower-case letters or digits, and
    there are as many pairs as asked for. *)
Theorem generate_email_password_pairs_well_formed (rng : Type)
    (choice : rng -> nat -> nat * rng) (r : rng) (num_pairs : nat) :
  (forall r n, (0 < n)%nat -> (fst (choice r n) < n)%nat) ->
  List.length (fst (generate_email_password_pairs rng choice r num_pairs))
  = num_pairs /\
  Forall well_formed_pair
         (fst (generate_email_password_pairs rng choice r num_pairs)).
Proof. intros H. now apply pairs_spec. Qed.

Lemma counter_choice_in_range (r n : nat) :
  (0 < n)%nat -> (fst (counter_choice r n) < n)%nat.
Proof. intros H. cbn [counter_choice fst]. apply Nat.mod_upper_bound. lia. Qed.

Lemma generate_email_password_pairs_well_formed_witness :
  List.length (fst (generate_email_password_pairs nat counter_choice 7%nat 3%nat))
  = 3%nat /\
  Forall well_formed_pair
         (fst (generate_email_password_pairs nat counter_choice 7%nat 3%nat)).
Proof.
  exact (generate_email_password_pairs_well_formed nat counter_choice
           7%nat 3%nat counter_choice_in_range).
Defined.

(** X15.  The text [main] writes is 100 lines of 33 characters separated by
    single line feeds, 3399 characters in all, with no line feed at the
    end; split at the line feeds it gives back the 100 generated pairs. *)
Theorem generator_main_file (rng : Type) (choice : rng -> nat -> nat * rng)
    (r : rng) :
  (forall r n, (0 < n)%nat -> (fst (choice r n) < n)%nat) ->
  split_on NEWLINE (generator_main rng choice r)
  = fst (generate_email_password_pairs rng choice r 100) /\
  List.length (split_on NEWLINE (generator_main rng choice r)) = 100%nat /\
  List.length (generator_main rng choice r) = 3399%nat.
Proof.
  intros H. unfold generator_main, write_to_file.
  destruct (pairs_spec rng choice H 100 r) as [L F].
  set (lines := fst (generate_email_password_pairs rng choice r 100)) in *.
  assert (lines <> []) as Hne by (intros E; rewrite E in L; discriminate L).
  assert (split_on NEWLINE (join_lines lines) = lines) as S.
  { apply split_join_lines; [exact Hne|].
    eapply Forall_impl; [|exact F]. apply well_formed_pair_one_line. }
  split; [exact S|]. split; [now rewrite S|].
  pose proof (join_lines_length lines 33 Hne) as J.
  rewrite L in J. cbn in J.
  enough (List.length (join_lines lines) + 1 = 3400)%nat by lia.
  apply J. eapply Forall_impl; [|exact F]. apply well_formed_pair_length.
Qed.

Lemma generator_main_file_witness :
  List.length (generator_main nat counter_choice 0%nat) = 3399%nat.
Proof.
  exact (proj2 (proj2 (generator_main_file nat counter_choice 0%nat
                         counter_choice_in_range))).
Defined.

(** The encoder on one character of each length, and on a surrogate. *)
Example encode_utf8_lengths :
  encode_utf8 [0x61; 0xE9; 0x20AC; 0x1F600]%N
  = Some [x61; xc3; xa9; xe2; x82; xac; xf0; x9f; x98; x80] /\
  encode_utf8 [0x61; 0xDCFF]%N = None /\
  decode_utf8_ignore [x61; xc3; xa9; xe2; x82; xac; xf0; x9f; x98; x80]
  = [0x61; 0xE9; 0x20AC; 0x1F600]%N.
Proof. split; [reflexivity|]. split; reflexivity. Qed.
